(** * The live-reload client of web-dev-server (src/js/script.js)

    A shallow embedding of the browser-side client: the reconnect
    back-off of [connect], the message dispatcher [handleMessage], the
    HTML and CSS diff appliers, the head merge, script reactivation, the
    cache-bust URL builder and the path normaliser.

    JavaScript strings are Rocq strings.  The browser itself (the URL
    parser, the clock, the JSON parser, [fetch]) is not code of the
    repository: it is a [Platform] the client is parameterised by, and
    the theorems hold for every platform.  [Ref.platform] builds concrete
    pages, used for worked examples. *)

From Stdlib Require Import ZArith Ascii DecimalString.
From stdpp Require Import base option list strings gmap.

Local Open Scope Z_scope.
Set Warnings "-register-all".

(** ** Strings as the client uses them *)

Module Str.

Definition chars (s : string) : list ascii := String.list_ascii_of_string s.
Definition of_chars (l : list ascii) : string := String.string_of_list_ascii l.

Fixpoint is_prefix (p l : list ascii) : bool :=
  match p, l with
  | [], _ => true
  | a :: p', b :: l' => Ascii.eqb a b && is_prefix p' l'
  | _ :: _, [] => false
  end.

(** [s.startsWith(p)] and [s.endsWith(p)]. *)
Definition startsWith (s p : string) : bool := is_prefix (chars p) (chars s).
Definition endsWith (s p : string) : bool :=
  is_prefix (rev (chars p)) (rev (chars s)).

(** ASCII lower-casing, the folding a regular expression with the [i]
    flag applies to the letters of a pattern that is ASCII. *)
Definition lower (c : ascii) : ascii :=
  let n := nat_of_ascii c in
  if ((65 <=? n) && (n <=? 90))%nat then ascii_of_nat (n + 32) else c.

Definition endsWith_ci (s p : string) : bool :=
  is_prefix (rev (chars p)) (map lower (rev (chars s))).

Definition drop_end (n : nat) (s : string) : string :=
  of_chars (rev (drop n (rev (chars s)))).

Fixpoint drop_slashes (l : list ascii) : list ascii :=
  match l with
  | c :: l' => if Ascii.eqb c "/"%char then drop_slashes l' else l
  | [] => []
  end.

(** [s.replace(/index\.html?$/i, "")]: the match is anchored at the end
    of [s], so it is the last ten characters when they spell
    index.html in any case, and otherwise the last nine when they
    spell index.htm. *)
Definition replace_index_html (s : string) : string :=
  if endsWith_ci s "index.html" then drop_end 10 s
  else if endsWith_ci s "index.htm" then drop_end 9 s
  else s.

(** [s.replace(/\/+$/, "")]: the whole run of slashes that ends [s]. *)
Definition replace_trailing_slashes (s : string) : string :=
  of_chars (rev (drop_slashes (rev (chars s)))).

(** [n.toString()] for an integer [n]. *)
Definition of_Z (n : Z) : string := NilEmpty.string_of_int (Z.to_int n).

(** ASCII whitespace: tab, line feed, form feed, carriage return and
    space. *)
Definition is_space (c : ascii) : bool :=
  let n := nat_of_ascii c in
  ((n =? 9) || (n =? 10) || (n =? 12) || (n =? 13) || (n =? 32))%nat.

(** Where the scan of [strip_and_collapse] is: before the first
    character it keeps, right after one it kept, or after whitespace that
    follows one it kept. *)
Inductive scan := AtStart | InWord | AfterGap.

Fixpoint collapse (st : scan) (l : list ascii) : list ascii :=
  match l with
  | [] => []
  | c :: r =>
      if is_space c
      then collapse (match st with AtStart => AtStart | _ => AfterGap end) r
      else match st with
           | AfterGap => " "%char :: c :: collapse InWord r
           | _ => c :: collapse InWord r
           end
  end.

(** Strip and collapse ASCII whitespace: every run of whitespace becomes
    one space, and the runs at both ends go. *)
Definition strip_and_collapse (s : string) : string :=
  of_chars (collapse AtStart (chars s)).

End Str.

(** ** Path normaliser, on a pathname (script.js, lines 201-214) *)

Definition normalizePathname (pathname : string) : string :=
  let pathname :=
    if Str.endsWith pathname "index.html" || Str.endsWith pathname "index.htm"
    then Str.replace_index_html pathname else pathname in
  let pathname :=
    if (1 <? String.length pathname)%nat && Str.endsWith pathname "/"
    then Str.replace_trailing_slashes pathname else pathname in
  let pathname :=
    if negb (Str.startsWith pathname "/") then "/" +:+ pathname else pathname in
  let pathname :=
    if String.eqb pathname "" then "/" else pathname in
  pathname.

(** ** Values of the page: what [JSON.parse] and the config slot hold

    A number is an integer of magnitude below 10^21, which JavaScript
    writes with all its digits; fractions and larger numbers are not
    values of the model.  The client only tests a number for being zero
    and, at most, writes one into a URL. *)

Inductive value :=
| VUndefined
| VNull
| VBool (b : bool)
| VNum (n : Z)
| VStr (s : string)
| VArr (items : list value)
| VObj (members : list (string * value)).

(** [!!v] *)
Definition truthy (v : value) : bool :=
  match v with
  | VUndefined | VNull => false
  | VBool b => b
  | VNum n => negb (n =? 0)
  | VStr s => negb (String.eqb s "")
  | VArr _ | VObj _ => true
  end.

(** A later member of a JSON object overrides an earlier one of the
    same name. *)
Fixpoint member (k : string) (m : list (string * value)) : option value :=
  match m with
  | [] => None
  | (k', v) :: r =>
      match member k r with
      | Some v' => Some v'
      | None => if String.eqb k' k then Some v else None
      end
  end.

(** [v.k], for a [k] no prototype defines. *)
Definition get_prop (v : value) (k : string) : value :=
  match v with
  | VObj m => default VUndefined (member k m)
  | _ => VUndefined
  end.

Fixpoint join (sep : string) (l : list string) : string :=
  match l with
  | [] => ""
  | [s] => s
  | s :: r => s +:+ sep +:+ join sep r
  end.

(** The string a value is converted to when it is passed where a string
    is expected, as [new URL(path, origin)] does with [path]. *)
Fixpoint ToString (v : value) : string :=
  match v with
  | VUndefined => "undefined"
  | VNull => "null"
  | VBool b => if b then "true" else "false"
  | VNum n => Str.of_Z n
  | VStr s => s
  | VArr items =>
      join "," (List.map (fun x => match x with
                                   | VUndefined | VNull => ""
                                   | _ => ToString x
                                   end) items)
  | VObj _ => "[object Object]"
  end.

(** ** URL objects *)

Record URL := mkURL {
  protocol : string;
  host : string;
  pathname : string;
  searchParams : list (string * string);
  hash : string
}.

Definition named (name : string) (kv : string * string) : bool :=
  String.eqb (fst kv) name.

(** [params.set(name, value)]: the first pair called [name] takes the
    value and the later ones go; without such a pair one is appended. *)
Fixpoint searchParams_set (name v : string) (l : list (string * string))
  : list (string * string) :=
  match l with
  | [] => [(name, v)]
  | kv :: r =>
      if named name kv
      then (name, v) :: List.filter (fun kv' => negb (named name kv')) r
      else kv :: searchParams_set name v r
  end.

(** [params.get(name)] *)
Fixpoint searchParams_get (name : string) (l : list (string * string))
  : option string :=
  match l with
  | [] => None
  | kv :: r => if named name kv then Some (snd kv) else searchParams_get name r
  end.

Definition URL_set (u : URL) (name v : string) : URL :=
  mkURL (protocol u) (host u) (pathname u)
        (searchParams_set name v (searchParams u)) (hash u).

(** ** The document *)

Definition attrs := list (string * string).

(** Every element is an object with an identity [nid].  A script element
    is a [Script] and holds text only, as the HTML parser makes it;
    [Elem] is an element of any other tag. *)
Inductive node :=
| Text (data : string)
| Script (nid : nat) (a : attrs) (text : string)
| Elem (nid : nat) (tag : string) (a : attrs) (kids : list node).

Fixpoint getAttribute (name : string) (a : attrs) : option string :=
  match a with
  | [] => None
  | (k, v) :: r => if String.eqb k name then Some v else getAttribute name r
  end.

Fixpoint setAttribute (name v : string) (a : attrs) : attrs :=
  match a with
  | [] => [(name, v)]
  | (k, v') :: r =>
      if String.eqb k name then (k, v) :: r else (k, v') :: setAttribute name v r
  end.

Definition is_element (n : node) : bool :=
  match n with Text _ => false | _ => true end.

Definition node_attrs (n : node) : attrs :=
  match n with Text _ => [] | Script _ a _ => a | Elem _ _ a _ => a end.

Definition node_nid (n : node) : option nat :=
  match n with Text _ => None | Script i _ _ => Some i | Elem i _ _ _ => Some i end.

(** [node.id]: the id attribute, or the empty string. *)
Definition node_id (n : node) : string :=
  default "" (getAttribute "id" (node_attrs n)).

(** A document: the children of its head and of its body. *)
Record document := mkDocument {
  head : list node;
  body : list node
}.

(** The first title element at or below a node, in tree order. *)
Fixpoint title_element (n : node) : option node :=
  match n with
  | Text _ | Script _ _ _ => None
  | Elem _ tg _ kids =>
      if String.eqb tg "title" then Some n
      else
        (fix title_element_of_kids (l : list node) : option node :=
           match l with
           | [] => None
           | x :: r =>
               match title_element x with
               | Some t => Some t
               | None => title_element_of_kids r
               end
           end) kids
  end.

Fixpoint title_element_among (l : list node) : option node :=
  match l with
  | [] => None
  | x :: r =>
      match title_element x with
      | Some t => Some t
      | None => title_element_among r
      end
  end.

(** The data of the text nodes among the children of an element, put
    together. *)
Fixpoint child_text (kids : list node) : string :=
  match kids with
  | [] => ""
  | Text d :: r => d +:+ child_text r
  | _ :: r => child_text r
  end.

Definition node_kids (n : node) : list node :=
  match n with Elem _ _ _ kids => kids | _ => [] end.

(** [document.title]: the text of the first title element of the
    document, with its whitespace stripped and collapsed, or the empty
    string without a title element. *)
Definition title (d : document) : string :=
  match title_element_among (head d ++ body d) with
  | Some t => Str.strip_and_collapse (child_text (node_kids t))
  | None => ""
  end.

(** The children a title element has once its text is set to [v]. *)
Definition title_kids (v : string) : list node :=
  if String.eqb v "" then [] else [Text v].

(** The node with the children of its first title element, in tree
    order, replaced by the text [v]; [None] without a title element. *)
Fixpoint set_title_below (v : string) (n : node) : option node :=
  match n with
  | Text _ | Script _ _ _ => None
  | Elem i tg a kids =>
      if String.eqb tg "title" then Some (Elem i tg a (title_kids v))
      else
        match
          (fix set_title_of_kids (l : list node) : option (list node) :=
             match l with
             | [] => None
             | x :: r =>
                 match set_title_below v x with
                 | Some x' => Some (x' :: r)
                 | None =>
                     match set_title_of_kids r with
                     | Some r' => Some (x :: r')
                     | None => None
                     end
                 end
             end) kids
        with
        | Some kids' => Some (Elem i tg a kids')
        | None => None
        end
  end.

Fixpoint set_title_among (v : string) (l : list node) : option (list node) :=
  match l with
  | [] => None
  | x :: r =>
      match set_title_below v x with
      | Some x' => Some (x' :: r)
      | None =>
          match set_title_among v r with
          | Some r' => Some (x :: r')
          | None => None
          end
      end
  end.

(** [document.title = v]: the text of the first title element of the
    document becomes [v]; without a title element a new one, of identity
    [k], is appended to the head. *)
Definition set_title (v : string) (d : document) (k : nat) : document * nat :=
  match set_title_among v (head d) with
  | Some h => (mkDocument h (body d), k)
  | None =>
      match set_title_among v (body d) with
      | Some b => (mkDocument (head d) b, k)
      | None =>
          (mkDocument (head d ++ [Elem k "title" [] (title_kids v)]) (body d),
           S k)
      end
  end.

(** What parsing a fetched page gives: [doc.head] and [doc.body], either
    possibly absent. *)
Record fetched := mkFetched {
  f_head : option (list node);
  f_body : option (list node)
}.

(** [doc.title] of a fetched page. *)
Definition f_title (d : fetched) : string :=
  title (mkDocument (default [] (f_head d)) (default [] (f_body d))).

(** [getPreservedIds()] *)
Definition getPreservedIds : list string :=
  ["__web_dev_server_config"; "__web_dev_server_client"].

Definition preserved (id : string) : bool :=
  existsb (String.eqb id) getPreservedIds.

(** ** The browser *)

Record Platform := mkPlatform {
  (** [new URL(input, window.location.origin)]; [None] when it throws *)
  new_URL : string -> option URL;
  (** [url.toString()] *)
  URL_toString : URL -> string;
  (** [window.location] *)
  location_protocol : string;
  location_host : string;
  location_pathname : string;
  (** [window["__WEB_DEV_SERVER_CONFIG__"]] *)
  window_config : value;
  (** the number the k-th call of [Date.now()] returns *)
  Date_now : nat -> Z;
  (** [JSON.parse(data)]; [None] when it throws *)
  JSON_parse : string -> option value;
  (** [fetch(url).text()] parsed as text/html; [None] when it rejects *)
  fetch_html : string -> option fetched;
  (** what a property that reflects a URL attribute holds when the
      attribute has the given value: [link.href] for href, [script.src]
      for src *)
  resolve_href : string -> string;
  (** whether [new WebSocket(url)] returns a socket; it throws a
      SyntaxError otherwise *)
  WebSocket_accepts : string -> bool
}.

(** ** State of the page, and computations that may throw *)

Record world := mkWorld {
  retryDelay : Z;
  timers : list Z;          (* delays given to setTimeout(connect, _) *)
  sockets : list string;    (* targets of the sockets created *)
  console : list string;    (* what log and error printed *)
  navigations : list string;(* window.location.replace(url) *)
  clock : nat;              (* calls of Date.now() so far *)
  next_nid : nat;           (* identity of the next node created *)
  doc : document
}.

Definition M (A : Type) : Type := world -> option A * world.

Definition ret {A} (a : A) : M A := fun w => (Some a, w).
Definition throw {A} : M A := fun w => (None, w).
Definition bind {A B} (m : M A) (f : A -> M B) : M B :=
  fun w => match m w with
           | (Some a, w') => f a w'
           | (None, w') => (None, w')
           end.
(** [try { m } catch (err) { h }] *)
Definition try_catch {A} (m : M A) (h : M A) : M A :=
  fun w => match m w with
           | (Some a, w') => (Some a, w')
           | (None, w') => h w'
           end.
(** Calling an async function: what it throws rejects its promise and
    does not reach the caller.  Its body is run to its end at the call,
    as when the fetch it awaits is answered before anything else
    happens. *)
Definition detach (m : M unit) : M unit :=
  fun w => (Some tt, snd (m w)).

Notation "x <- m ;; k" := (bind m (fun x => k))
  (at level 100, m at next level, right associativity).
Notation "m ;;; k" := (bind m (fun _ => k))
  (at level 100, right associativity).

(** A call that returns a value or throws, and touches nothing. *)
Definition lift {A} (o : option A) : M A := fun w => (o, w).

Definition modify (f : world -> world) : M unit := fun w => (Some tt, f w).

Definition with_retryDelay (d : Z) (w : world) : world :=
  mkWorld d (timers w) (sockets w) (console w) (navigations w)
          (clock w) (next_nid w) (doc w).
Definition with_timer (d : Z) (w : world) : world :=
  mkWorld (retryDelay w) (timers w ++ [d]) (sockets w) (console w)
          (navigations w) (clock w) (next_nid w) (doc w).
Definition with_socket (t : string) (w : world) : world :=
  mkWorld (retryDelay w) (timers w) (sockets w ++ [t]) (console w)
          (navigations w) (clock w) (next_nid w) (doc w).
Definition with_console (s : string) (w : world) : world :=
  mkWorld (retryDelay w) (timers w) (sockets w) (console w ++ [s])
          (navigations w) (clock w) (next_nid w) (doc w).
Definition with_navigation (u : string) (w : world) : world :=
  mkWorld (retryDelay w) (timers w) (sockets w) (console w)
          (navigations w ++ [u]) (clock w) (next_nid w) (doc w).
Definition with_clock (k : nat) (w : world) : world :=
  mkWorld (retryDelay w) (timers w) (sockets w) (console w)
          (navigations w) k (next_nid w) (doc w).
Definition with_dom (k : nat) (d : document) (w : world) : world :=
  mkWorld (retryDelay w) (timers w) (sockets w) (console w)
          (navigations w) (clock w) k d.

Definition log (s : string) : M unit := modify (with_console s).
Definition error (s : string) : M unit := modify (with_console s).

(** ** DOM operations the client performs *)

(** [document.importNode(n, true)]: a deep copy made of new nodes. *)
Fixpoint importNode (n : node) (k : nat) : node * nat :=
  match n with
  | Text d => (Text d, k)
  | Script _ a t => (Script k a t, S k)
  | Elem _ tg a kids =>
      let '(kids', k') :=
        (fix import_kids (l : list node) (j : nat) : list node * nat :=
           match l with
           | [] => ([], j)
           | x :: r =>
               let '(x', j1) := importNode x j in
               let '(r', j2) := import_kids r j1 in
               (x' :: r', j2)
           end) kids (S k) in
      (Elem k tg a kids', k')
  end.

Fixpoint importNodes (l : list node) (k : nat) : list node * nat :=
  match l with
  | [] => ([], k)
  | x :: r =>
      let '(x', k1) := importNode x k in
      let '(r', k2) := importNodes r k1 in
      (x' :: r', k2)
  end.

(** [existing.replaceWith(imported)] among the children of the parent of
    [existing], the node of identity [target]. *)
Fixpoint replaceWith (target : nat) (imported : node) (l : list node)
  : list node :=
  match l with
  | [] => []
  | n :: r =>
      if bool_decide (node_nid n = Some target) then imported :: r
      else n :: replaceWith target imported r
  end.

Definition nonempty (s : string) : bool := negb (String.eqb s "").

(** The [existingById] map of [mergeHead]: from the id of a child of the
    live head to that child. *)
Definition index_child (m : gmap string nat) (n : node) : gmap string nat :=
  match node_nid n with
  | Some i => if nonempty (node_id n) then <[node_id n := i]> m else m
  | None => m
  end.

Definition existingById (children : list node) : gmap string nat :=
  foldl index_child ∅ children.

(** The state of the loop of [mergeHead]: the children of the live head,
    the map, and the next identity. *)
Definition merge_state : Type := list node * gmap string nat * nat.

(** One round of the loop over [newHead.children] (lines 138-154). *)
Definition merge_child (st : merge_state) (n : node) : merge_state :=
  let '(hd, idx, k) := st in
  if nonempty (node_id n) && preserved (node_id n) then st
  else
    let '(imported, k') := importNode n k in
    match (if nonempty (node_id n) then idx !! node_id n else None) with
    | Some existing =>
        (replaceWith existing imported hd, delete (node_id n) idx, k')
    | None => (hd ++ [imported], idx, k')
    end.

Definition merge_children (newChildren hd : list node) (k : nat)
  : list node * nat :=
  let '(hd', _, k') :=
    foldl merge_child (hd, existingById hd, k)
          (List.filter is_element newChildren) in
  (hd', k').

(** [oldScript.src] is truthy: the src attribute is there and the URL
    the property reflects it as is not empty. *)
Definition has_src (P : Platform) (a : attrs) : bool :=
  match getAttribute "src" a with
  | Some v => nonempty (resolve_href P v)
  | None => false
  end.

(** The body of the loop of [reactivateScripts], at every script below a
    node, in document order (lines 224-236). *)
Fixpoint reactivate (P : Platform) (n : node) (k : nat) : node * nat :=
  match n with
  | Text d => (Text d, k)
  | Script i a t =>
      if nonempty (node_id n) && preserved (node_id n) then (Script i a t, k)
      else (Script k a (if has_src P a then "" else t), S k)
  | Elem i tg a kids =>
      let '(kids', k') :=
        (fix reactivate_kids (l : list node) (j : nat) : list node * nat :=
           match l with
           | [] => ([], j)
           | x :: r =>
               let '(x', j1) := reactivate P x j in
               let '(r', j2) := reactivate_kids r j1 in
               (x' :: r', j2)
           end) kids k in
      (Elem i tg a kids', k')
  end.

Fixpoint reactivateAll (P : Platform) (l : list node) (k : nat)
  : list node * nat :=
  match l with
  | [] => ([], k)
  | x :: r =>
      let '(x', k1) := reactivate P x k in
      let '(r', k2) := reactivateAll P r k1 in
      (x' :: r', k2)
  end.

(** [link[rel="stylesheet"]]: the selector compares the value of rel
    without regard to case. *)
Definition is_stylesheet (tg : string) (a : attrs) : bool :=
  String.eqb tg "link" &&
  match getAttribute "rel" a with
  | Some v => bool_decide (map Str.lower (Str.chars v) = Str.chars "stylesheet")
  | None => false
  end.

(** The state of the loop of [applyCssDiff]: the clock, the [updated]
    flag, and whether the loop was left by an exception. *)
Record css_state := mkCss {
  css_clock : nat;
  css_updated : bool;
  css_thrown : bool
}.

Inductive root := DocumentHead | DocumentBody.

(** What happens to the page: the events of the socket, and the timer
    that [setTimeout(connect, _)] arms. *)
Inductive event :=
| SocketOpen
| SocketMessage (data : string)
| SocketClose
| SocketError
| TimerFired.

Section Client.

Variable P : Platform.

(** *** Configuration (lines 2-5) *)

Definition config : value :=
  if truthy (window_config P) then window_config P else VObj [].

Definition wsPath : string :=
  match get_prop config "wsPath" with
  | VStr s => s
  | _ => "/_live/ws"
  end.

Definition diffMode : bool := truthy (get_prop config "diffMode").

Definition current_path : value := VStr (location_pathname P).

(** *** URL builders (lines 182-215) *)

Definition Date_now_toString : M string :=
  fun w => (Some (Str.of_Z (Date_now P (clock w))), with_clock (S (clock w)) w).

Definition cacheBustUrl (path : value) : M string :=
  match new_URL P (ToString path) with
  | None => throw
  | Some url =>
      now <- Date_now_toString ;;
      ret (URL_toString P (URL_set url "_v" now))
  end.

Definition hardReload (path : value) : M unit :=
  url <- cacheBustUrl path ;;
  modify (with_navigation url).

(** [None] when [new URL] throws. *)
Definition normalizeHtmlPath (path : value) : option string :=
  match new_URL P (ToString path) with
  | None => None
  | Some url => Some (normalizePathname (pathname url))
  end.

Definition pathsMatch (messagePath currentPath : value) : option bool :=
  match normalizeHtmlPath messagePath with
  | None => None
  | Some normalizedMessage =>
      match normalizeHtmlPath currentPath with
      | None => None
      | Some normalizedCurrent =>
          Some (String.eqb normalizedMessage normalizedCurrent)
      end
  end.

(** *** The DOM merge engine (lines 103-155, 221-237) *)

Definition updateTitle (d : fetched) : M unit :=
  if nonempty (f_title d)
  then modify (fun w =>
         let '(d', k) := set_title (f_title d) (doc w) (next_nid w) in
         with_dom k d' w)
  else ret tt.

Definition replaceBody (newBody : option (list node)) : M unit :=
  match newBody with
  | None => hardReload current_path
  | Some childNodes =>
      modify (fun w =>
        let '(nodes, k) := importNodes childNodes (next_nid w) in
        with_dom k (mkDocument (head (doc w)) nodes) w)
  end.

Definition mergeHead (newHead : option (list node)) : M unit :=
  match newHead with
  | None => ret tt
  | Some children =>
      modify (fun w =>
        let '(hd, k) := merge_children children (head (doc w)) (next_nid w) in
        with_dom k (mkDocument hd (body (doc w))) w)
  end.

Definition reactivateScripts (r : root) : M unit :=
  modify (fun w =>
    match r with
    | DocumentBody =>
        let '(b, k) := reactivateAll P (body (doc w)) (next_nid w) in
        with_dom k (mkDocument (head (doc w)) b) w
    | DocumentHead =>
        let '(h, k) := reactivateAll P (head (doc w)) (next_nid w) in
        with_dom k (mkDocument h (body (doc w))) w
    end).

(** *** HTML diff (lines 76-101) *)

Definition applyHtmlDiff (path : value) : M unit :=
  if negb (truthy path) then hardReload current_path
  else
    try_catch
      (url <- cacheBustUrl path ;;
       match fetch_html P url with
       | None => throw
       | Some d =>
           updateTitle d ;;;
           mergeHead (f_head d) ;;;
           replaceBody (f_body d) ;;;
           reactivateScripts DocumentBody ;;;
           reactivateScripts DocumentHead
       end)
      (error "failed to apply HTML diff" ;;;
       hardReload current_path).

(** *** CSS diff (lines 157-180) *)

(** [link.href] *)
Definition link_href (a : attrs) : string :=
  match getAttribute "href" a with
  | Some v => resolve_href P v
  | None => ""
  end.

(** The body of the loop over the stylesheet links (lines 168-174). *)
Definition css_link (normalizedPath : string) (a : attrs) (st : css_state)
  : attrs * css_state :=
  if css_thrown st then (a, st)
  else
    match new_URL P (link_href a) with
    | None => (a, mkCss (css_clock st) (css_updated st) true)
    | Some fresh =>
        if String.eqb (pathname fresh) normalizedPath
        then
          let now := Str.of_Z (Date_now P (css_clock st)) in
          (setAttribute "href" (URL_toString P (URL_set fresh "_v" now)) a,
           mkCss (S (css_clock st)) true false)
        else (a, st)
    end.

Fixpoint css_node (normalizedPath : string) (n : node) (st : css_state)
  : node * css_state :=
  match n with
  | Text d => (Text d, st)
  | Script i a t => (Script i a t, st)
  | Elem i tg a kids =>
      let '(a', st1) :=
        if is_stylesheet tg a then css_link normalizedPath a st else (a, st) in
      let '(kids', st2) :=
        (fix css_kids (l : list node) (s : css_state) : list node * css_state :=
           match l with
           | [] => ([], s)
           | x :: r =>
               let '(x', s1) := css_node normalizedPath x s in
               let '(r', s2) := css_kids r s1 in
               (x' :: r', s2)
           end) kids st1 in
      (Elem i tg a' kids', st2)
  end.

Fixpoint css_nodes (normalizedPath : string) (l : list node) (st : css_state)
  : list node * css_state :=
  match l with
  | [] => ([], st)
  | x :: r =>
      let '(x', s1) := css_node normalizedPath x st in
      let '(r', s2) := css_nodes normalizedPath r s1 in
      (x' :: r', s2)
  end.

(** [document.querySelectorAll(...).forEach(...)]: the head, then the
    body; what the loop changed stays changed when it throws. *)
Definition refresh_stylesheets (normalizedPath : string) : M bool :=
  fun w =>
    let '(h, s1) := css_nodes normalizedPath (head (doc w))
                      (mkCss (clock w) false false) in
    let '(b, s2) := css_nodes normalizedPath (body (doc w)) s1 in
    let w' := with_clock (css_clock s2)
                (with_dom (next_nid w) (mkDocument h b) w) in
    if css_thrown s2 then (None, w') else (Some (css_updated s2), w').

Definition applyCssDiff (path : value) : M unit :=
  if negb (truthy path) then hardReload current_path
  else
    match new_URL P (ToString path) with
    | None => throw
    | Some target =>
        updated <- refresh_stylesheets (pathname target) ;;
        if negb updated then hardReload current_path else ret tt
    end.

(** *** Message dispatcher (lines 41-74) *)

Definition is_string (v : value) : bool :=
  match v with VStr _ => true | _ => false end.

(** [v === s] for a string literal [s] *)
Definition equals (v : value) (s : string) : bool :=
  match v with VStr x => String.eqb x s | _ => false end.

Definition handleMessage (message : value) : M unit :=
  if negb (truthy message) || negb (is_string (get_prop message "type"))
  then ret tt
  else if equals (get_prop message "type") "reload"
  then hardReload current_path
  else if equals (get_prop message "type") "diff"
  then
    if negb diffMode then hardReload current_path
    else if equals (get_prop message "resource") "html"
    then
      matching <- lift (pathsMatch (get_prop message "path") current_path) ;;
      if negb matching
      then log "skipping HTML diff for non-matching path"
      else detach (applyHtmlDiff (get_prop message "path"))
    else if equals (get_prop message "resource") "css"
    then applyCssDiff (get_prop message "path")
    else hardReload current_path
  else ret tt.

(** *** Connection manager (lines 7-39) *)

Definition connect : M unit :=
  let protocol :=
    if String.eqb (location_protocol P) "https:" then "wss" else "ws" in
  let target := protocol +:+ "://" +:+ location_host P +:+ wsPath in
  if WebSocket_accepts P target then modify (with_socket target) else throw.

(** The listeners of the socket, and the timer that calls [connect]. *)
Definition on_event (e : event) : M unit :=
  match e with
  | SocketOpen =>
      log "connected" ;;;
      modify (with_retryDelay 500)
  | SocketMessage data =>
      try_catch
        (match JSON_parse P data with
         | None => throw
         | Some message => handleMessage message
         end)
        (error "received malformed message")
  | SocketClose =>
      modify (fun w => with_retryDelay (Z.min (retryDelay w * 2) 8000) w) ;;;
      modify (fun w => with_timer (retryDelay w) w)
  | SocketError => ret tt
  | TimerFired => connect
  end.

Fixpoint run (es : list event) (w : world) : world :=
  match es with
  | [] => w
  | e :: r => run r (snd (on_event e w))
  end.

End Client.

(** The page as the script finds it when it starts: line 7, then
    [connect()] at line 239. *)
Definition start (P : Platform) (d : document) (k : nat) : world :=
  snd (connect P (mkWorld 500 [] [] [] [] 0 k d)).

(** ** A reference page

    The page http://localhost:3000 with a URL parser that follows the
    URL standard on plain references: an optional origin, a path of
    letters, digits, [-], [_], [.] and [/] that holds no dot segment
    and does not start with two slashes, an optional query of plain
    name=value pairs and an optional plain fragment.  It rejects every
    other input, where the browser may well accept it; the examples stay
    inside the plain references.  A URL attribute is reflected as the
    standard says for these references, and [new WebSocket] accepts the
    ws addresses that are such a reference without a fragment. *)

Module Ref.

Definition origin : string := "http://localhost:3000".

Definition alnum (c : ascii) : bool :=
  let n := nat_of_ascii c in
  ((48 <=? n) && (n <=? 57) || (65 <=? n) && (n <=? 90)
   || (97 <=? n) && (n <=? 122))%nat.

Definition plain (c : ascii) : bool :=
  alnum c || Ascii.eqb c "-" || Ascii.eqb c "_" || Ascii.eqb c ".".

(** The text before the first [sep], and the text after it if any. *)
Fixpoint split_at (sep : ascii) (l : list ascii)
  : list ascii * option (list ascii) :=
  match l with
  | [] => ([], None)
  | c :: r =>
      if Ascii.eqb c sep then ([], Some r)
      else let '(a, b) := split_at sep r in (c :: a, b)
  end.

Fixpoint split_all (sep : ascii) (l : list ascii) : list (list ascii) :=
  match l with
  | [] => [[]]
  | c :: r =>
      if Ascii.eqb c sep then [] :: split_all sep r
      else match split_all sep r with
           | [] => [[c]]
           | s :: ss => (c :: s) :: ss
           end
  end.

Definition is_dots (seg : list ascii) : bool :=
  bool_decide (seg = Str.chars ".") || bool_decide (seg = Str.chars "..").

Definition parse_pair (piece : list ascii) : option (string * string) :=
  let '(k, v) := split_at "=" piece in
  if forallb plain k && forallb plain (default [] v)
  then Some (Str.of_chars k, Str.of_chars (default [] v))
  else None.

Fixpoint parse_pairs (pieces : list (list ascii))
  : option (list (string * string)) :=
  match pieces with
  | [] => Some []
  | [] :: r => parse_pairs r
  | p :: r =>
      match parse_pair p, parse_pairs r with
      | Some kv, Some kvs => Some (kv :: kvs)
      | _, _ => None
      end
  end.

Definition parse_reference (l : list ascii) : option URL :=
  let '(before, fragment) := split_at "#" l in
  let '(path, query) := split_at "?" before in
  if forallb (fun c => plain c || Ascii.eqb c "/") path
     && negb (Str.is_prefix (Str.chars "//") path)
     && negb (existsb is_dots (split_all "/" path))
  then
    match parse_pairs (match query with
                       | Some q => split_all "&" q
                       | None => []
                       end),
          fragment with
    | Some params, None =>
        Some (mkURL "http:" "localhost:3000"
                (if Str.is_prefix (Str.chars "/") path then Str.of_chars path
                 else "/" +:+ Str.of_chars path)
                params "")
    | Some params, Some (c :: f) =>
        if forallb plain (c :: f)
        then Some (mkURL "http:" "localhost:3000"
                     (if Str.is_prefix (Str.chars "/") path then Str.of_chars path
                      else "/" +:+ Str.of_chars path)
                     params ("#" +:+ Str.of_chars (c :: f)))
        else None
    | _, _ => None
    end
  else None.

Definition new_URL (input : string) : option URL :=
  let l := Str.chars input in
  if Str.is_prefix (Str.chars origin) l
  then
    match drop (String.length origin) l with
    | [] => parse_reference []
    | c :: r =>
        if Ascii.eqb c "/" || Ascii.eqb c "?" || Ascii.eqb c "#"
        then parse_reference (c :: r) else None
    end
  else parse_reference l.

Definition URL_toString (u : URL) : string :=
  protocol u +:+ "//" +:+ host u +:+ pathname u +:+
  match searchParams u with
  | [] => ""
  | params => "?" +:+ join "&" (List.map (fun kv => fst kv +:+ "=" +:+ snd kv) params)
  end +:+ hash u.

Fixpoint from_slash (l : list ascii) : list ascii :=
  match l with
  | c :: r => if Ascii.eqb c "/" then l else from_slash r
  | [] => []
  end.

(** The directory of a pathname: up to its last slash. *)
Definition directory (path : string) : string :=
  Str.of_chars (rev (from_slash (rev (Str.chars path)))).

(** The URL an attribute value is reflected as on the page at [path]: a
    plain reference is resolved against the URL of the page, and any
    other value is left as it is. *)
Definition resolve_href (path v : string) : string :=
  let l := Str.chars v in
  if Str.is_prefix (Str.chars origin) l then v
  else
    match parse_reference l with
    | None => v
    | Some _ =>
        match l with
        | [] => origin +:+ path
        | c :: _ =>
            if Ascii.eqb c "/" then origin +:+ v
            else if Ascii.eqb c "?" then origin +:+ path +:+ v
            else if Ascii.eqb c "#" then origin +:+ path +:+ v
            else origin +:+ directory path +:+ v
        end
    end.

(** [new WebSocket(url)] on a plain reference under ws://localhost:3000
    that has no fragment. *)
Definition WebSocket_accepts (url : string) : bool :=
  let l := Str.chars url in
  Str.is_prefix (Str.chars "ws://localhost:3000") l
  && match drop (String.length "ws://localhost:3000") l with
     | [] => true
     | c :: r =>
         (Ascii.eqb c "/" || Ascii.eqb c "?")
         && match parse_reference (c :: r) with
            | Some u => String.eqb (hash u) ""
            | None => false
            end
     end.

Definition Date_now (k : nat) : Z := 1700000000000 + Z.of_nat k.

(** The page at [path], with the given config slot and the given
    answers to [fetch]. *)
Definition platform (path : string) (cfg : value)
    (pages : string -> option fetched) : Platform :=
  mkPlatform new_URL URL_toString "http:" "localhost:3000" path cfg
             Date_now (fun _ => None) pages (resolve_href path)
             WebSocket_accepts.

End Ref.

(** ** Vocabulary of the statements *)

(** [is_normal s]: [s] starts with a slash, ends with one only when it is
    the root, and does not end in index.html or index.htm. *)
Definition is_normal (s : string) : bool :=
  Str.startsWith s "/"
  && negb ((1 <? String.length s)%nat && Str.endsWith s "/")
  && negb (Str.endsWith s "index.html")
  && negb (Str.endsWith s "index.htm").

(** The pathname [new URL(input, origin)] has, when it does not throw. *)
Definition pathname_of (P : Platform) (input : string) : option string :=
  match new_URL P input with
  | Some u => Some (pathname u)
  | None => None
  end.

(** The page of the examples: the reference page at the root, patch
    mode on, nothing to fetch. *)
Definition example_page : Platform :=
  Ref.platform "/" (VObj [("diffMode", VBool true)]) (fun _ => None).

(** An outage: closes, errors and reconnect timers, no open. *)
Definition is_failure (e : event) : bool :=
  match e with
  | SocketClose | SocketError | TimerFired => true
  | SocketOpen | SocketMessage _ => false
  end.

Definition closes (es : list event) : nat :=
  length (List.filter (fun e => match e with SocketClose => true | _ => false end) es).

(** 1000, 2000, 4000, 8000, 8000, ... *)
Definition backoff_from (j n : nat) : list Z :=
  List.map (fun k => Z.min (1000 * 2 ^ Z.of_nat k) 8000) (seq j n).

Definition backoff (n : nat) : list Z := backoff_from 0 n.

Definition empty_document : document := mkDocument [] [].

(** The page after a full reload of the current path, which resolves to
    [u]: the clock was read once and the location replaced. *)
Definition reloaded (P : Platform) (u : URL) (w : world) : world :=
  with_navigation
    (URL_toString P (URL_set u "_v" (Str.of_Z (Date_now P (clock w)))))
    (with_clock (S (clock w)) w).

(** The stylesheet links below a node, in document order, each with its
    identity and its attributes. *)
Fixpoint links_of (n : node) : list (nat * attrs) :=
  match n with
  | Text _ | Script _ _ _ => []
  | Elem i tg a kids =>
      (if is_stylesheet tg a then [(i, a)] else []) ++
      (fix links_of_kids (l : list node) : list (nat * attrs) :=
         match l with
         | [] => []
         | x :: r => links_of x ++ links_of_kids r
         end) kids
  end.

Fixpoint links (l : list node) : list (nat * attrs) :=
  match l with
  | [] => []
  | x :: r => links_of x ++ links r
  end.

(** What [querySelectorAll] finds in the document. *)
Definition stylesheet_links (d : document) : list (nat * attrs) :=
  links (head d) ++ links (body d).

(** The href of the link parses. *)
Definition resolves (P : Platform) (l : nat * attrs) : bool :=
  match new_URL P (link_href P (snd l)) with
  | Some _ => true
  | None => false
  end.

(** The href of the link parses, and its pathname is [target]. *)
Definition matches (P : Platform) (target : string) (l : nat * attrs) : bool :=
  match new_URL P (link_href P (snd l)) with
  | Some u => String.eqb (pathname u) target
  | None => false
  end.

(** A link before and after the loop that reads the clock from its
    [k]-th reading up to its [k']-th: one that matches is the same
    element with its href set to its URL with a _v read in between, and
    any other is as it was. *)
Definition refreshed (P : Platform) (target : string) (k k' : nat)
    (old new : nat * attrs) : Prop :=
  if matches P target old
  then fst new = fst old
       /\ exists j u, (k <= j < k')%nat
            /\ new_URL P (link_href P (snd old)) = Some u
            /\ snd new = setAttribute "href"
                 (URL_toString P (URL_set u "_v" (Str.of_Z (Date_now P j))))
                 (snd old)
  else new = old.

(** What the loop did between two of its states, on the links [ls] that
    became [ls']. *)
Definition css_run (P : Platform) (tp : string) (ls ls' : list (nat * attrs))
    (st st' : css_state) : Prop :=
  css_thrown st' = false
  /\ (css_clock st <= css_clock st')%nat
  /\ css_updated st' = css_updated st || existsb (matches P tp) ls
  /\ Forall2 (refreshed P tp (css_clock st) (css_clock st')) ls ls'.

(** The loop over the links below a node, or below the nodes of a list,
    that all parse: it does not throw, it relates the links as
    [css_run] says, and it changes nothing when no link matches. *)
Definition css_node_spec (P : Platform) (tp : string) (n : node) : Prop :=
  forall st,
    css_thrown st = false ->
    forallb (resolves P) (links_of n) = true ->
    css_run P tp (links_of n) (links_of (fst (css_node P tp n st)))
            st (snd (css_node P tp n st))
    /\ (existsb (matches P tp) (links_of n) = false ->
        css_node P tp n st = (n, st)).

Definition css_nodes_spec (P : Platform) (tp : string) (l : list node) : Prop :=
  forall st,
    css_thrown st = false ->
    forallb (resolves P) (links l) = true ->
    css_run P tp (links l) (links (fst (css_nodes P tp l st)))
            st (snd (css_nodes P tp l st))
    /\ (existsb (matches P tp) (links l) = false ->
        css_nodes P tp l st = (l, st)).

(** A page for the CSS examples: two stylesheet links, one of them to
    /styles/app.css, and a link that is no stylesheet. *)
Definition styled_document : document :=
  mkDocument
    [Elem 0 "link" [("rel", "stylesheet"); ("href", "/styles/app.css?x=1")] [];
     Elem 1 "link" [("rel", "icon"); ("href", "/styles/app.css")] [];
     Elem 2 "link" [("rel", "Stylesheet"); ("href", "/styles/site.css")] []]
    [Elem 3 "div" [] [Elem 4 "link" [("href", "/styles/app.css"); ("rel", "stylesheet")] []]].

(** An element whose id is in the preserved set. *)
Definition is_preserved (n : node) : bool :=
  is_element n && nonempty (node_id n) && preserved (node_id n).

(** An element taken alone: its identity, tag, attributes and, for a
    script, its text. *)
Definition shallow (n : node) : node :=
  match n with
  | Elem i tg a _ => Elem i tg a []
  | _ => n
  end.

(** The preserved elements among the children of the head. *)
Definition preserved_children (l : list node) : list node :=
  List.map shallow (List.filter is_preserved l).

(** The preserved elements at and below a node, in document order. *)
Fixpoint preserved_of (n : node) : list node :=
  (if is_preserved n then [shallow n] else []) ++
  match n with
  | Elem _ _ _ kids =>
      (fix preserved_of_kids (l : list node) : list node :=
         match l with
         | [] => []
         | x :: r => preserved_of x ++ preserved_of_kids r
         end) kids
  | _ => []
  end.

Fixpoint preserved_below (l : list node) : list node :=
  match l with
  | [] => []
  | x :: r => preserved_of x ++ preserved_below r
  end.

(** The identities of the elements of a list of nodes. *)
Fixpoint child_nids (l : list node) : list nat :=
  match l with
  | [] => []
  | n :: r =>
      match node_nid n with
      | Some i => i :: child_nids r
      | None => child_nids r
      end
  end.

(** The children of the live head are distinct objects, all older than
    the next node to be created. *)
Definition wf_head (w : world) : Prop :=
  NoDup (child_nids (head (doc w)))
  /\ Forall (fun i => (i < next_nid w)%nat) (child_nids (head (doc w))).

(** Head merges and script reactivations, in any order. *)
Inductive dom_op :=
| MergeHead (newHead : option (list node))
| ReactivateScripts (r : root).

Definition apply_op (P : Platform) (op : dom_op) : M unit :=
  match op with
  | MergeHead newHead => mergeHead newHead
  | ReactivateScripts r => reactivateScripts P r
  end.

Fixpoint apply_ops (P : Platform) (ops : list dom_op) (w : world) : world :=
  match ops with
  | [] => w
  | op :: r => apply_ops P r (snd (apply_op P op w))
  end.

(** What stays true of the loop of [mergeHead] that started on the
    children [hd0]: the children are distinct and older than the next
    node, every entry of the map is older too and names the id of the
    child it points at, and the preserved children are those of [hd0]. *)
Definition merge_inv (hd0 : list node) (st : merge_state) : Prop :=
  let '(hd, idx, k) := st in
  NoDup (child_nids hd)
  /\ Forall (fun i => (i < k)%nat) (child_nids hd)
  /\ (forall id i, idx !! id = Some i ->
        (i < k)%nat
        /\ forall m, m ∈ hd -> node_nid m = Some i -> node_id m = id)
  /\ preserved_children hd = preserved_children hd0.

(** A page for the merge examples, with the config carrier and the
    client script in its head and a copy of the client script in its
    body, and a fetched head that carries the same ids. *)
Definition live_document : document :=
  mkDocument
    [Elem 0 "meta" [("id", "__web_dev_server_config"); ("content", "old")] [];
     Text " ";
     Script 1 [("id", "__web_dev_server_client"); ("src", "/_live/script.js")] "";
     Elem 2 "link" [("id", "theme"); ("rel", "stylesheet")] [];
     Script 3 [] "init()"]
    [Elem 4 "div" []
       [Script 5 [("id", "__web_dev_server_client")] "boot()";
        Script 6 [] "run()"]].

Definition fetched_head : list node :=
  [Elem 100 "meta" [("id", "__web_dev_server_config"); ("content", "new")] [];
   Elem 101 "link" [("id", "theme"); ("rel", "stylesheet"); ("href", "/t.css")] [];
   Elem 102 "title" [] [Text "fetched"];
   Script 103 [("id", "__web_dev_server_client")] "other()"].

(** A page whose head holds the config carrier inside an element of id
    fallback, and a fetched head with an element of that id. *)
Definition nested_document : document :=
  mkDocument
    [Elem 0 "noscript" [("id", "fallback")]
       [Elem 1 "meta" [("id", "__web_dev_server_config")] []]]
    [].

Definition nested_head : list node :=
  [Elem 9 "noscript" [("id", "fallback")] []].

(** A page whose first stylesheet link has an href that is no URL. *)
Definition unparsable_document : document :=
  mkDocument
    [Elem 0 "link" [("rel", "stylesheet"); ("href", "http://[")] [];
     Elem 1 "link" [("rel", "stylesheet"); ("href", "/styles/app.css")] []]
    [].

(** ** Vocabulary of the further properties *)

(** The state of the connection manager. *)
Definition conn (w : world) : Z * list Z * list string :=
  (retryDelay w, timers w, sockets w).

(** A computation that leaves the connection manager alone. *)
Definition keeps_conn {A} (m : M A) : Prop :=
  forall w, conn (snd (m w)) = conn w.

(** The address [connect] opens its socket to (lines 13-14). *)
Definition ws_target (P : Platform) : string :=
  (if String.eqb (location_protocol P) "https:" then "wss" else "ws")
  +:+ "://" +:+ location_host P +:+ wsPath P.

Definition timer_fires (es : list event) : nat :=
  length (List.filter (fun e => match e with TimerFired => true | _ => false end) es).

(** A node with the identities taken away: its tags, attributes, text
    and shape. *)
Fixpoint skeleton (n : node) : node :=
  match n with
  | Text d => Text d
  | Script _ a t => Script 0 a t
  | Elem _ tg a kids => Elem 0 tg a (List.map skeleton kids)
  end.

(** The identities of the elements at and below a node, in document
    order. *)
Fixpoint nids_of (n : node) : list nat :=
  match n with
  | Text _ => []
  | Script i _ _ => [i]
  | Elem i _ _ kids => i :: flat_map nids_of kids
  end.





Definition root_nodes (r : root) (d : document) : list node :=
  match r with
  | DocumentHead => head d
  | DocumentBody => body d
  end.


(** The ids the element children of a fetched head carry. *)
Definition fetched_ids (children : list node) : list string :=
  List.map node_id (List.filter is_element children).

(** A child of the live head the merge of [children] has no reason to
    touch: it has no id, or its id is preserved, or no fetched element
    carries its id. *)
Definition untouched (children : list node) (n : node) : Prop :=
  node_id n = ""
  \/ preserved (node_id n) = true
  \/ ~ In (node_id n) (fetched_ids children).

(** During the loop of [mergeHead] on the children [hd0]: the list of
    children has not become shorter, and the untouched children of [hd0]
    are where they were. *)
Definition additive_inv (hd0 children : list node) (st : merge_state) : Prop :=
  let '(hd, _, _) := st in
  (length hd0 <= length hd)%nat
  /\ forall i n, hd0 !! i = Some n -> untouched children n -> hd !! i = Some n.

(** [a] without the attributes called [name]. *)
Definition removeAttribute (name : string) (a : attrs) : attrs :=
  List.filter (fun kv => negb (String.eqb (fst kv) name)) a.

(** A node with the href of every stylesheet link taken away. *)
Fixpoint mask (n : node) : node :=
  match n with
  | Text d => Text d
  | Script i a t => Script i a t
  | Elem i tg a kids =>
      Elem i tg (if is_stylesheet tg a then removeAttribute "href" a else a)
           (List.map mask kids)
  end.


(** * Properties *)

(** ** Strings *)

#[local] Arguments Ascii.eqb : simpl never.

Lemma chars_of_chars l : Str.chars (Str.of_chars l) = l.
Proof. apply String.list_ascii_of_string_of_list_ascii. Qed.

Lemma of_chars_chars s : Str.of_chars (Str.chars s) = s.
Proof. apply String.string_of_list_ascii_of_string. Qed.

Lemma chars_app a b : Str.chars (a +:+ b) = Str.chars a ++ Str.chars b.
Proof. induction a as [|c a IH]; simpl; [done|]. unfold Str.chars in *. by rewrite IH. Qed.

Lemma chars_inj a b : Str.chars a = Str.chars b -> a = b.
Proof. intros H. by rewrite <- (of_chars_chars a), H, of_chars_chars. Qed.

Lemma length_chars s : String.length s = length (Str.chars s).
Proof. induction s as [|c s IH]; simpl; [done|]. by rewrite IH. Qed.

Lemma is_prefix_app p x : Str.is_prefix p (p ++ x) = true.
Proof.
  induction p as [|c p IH]; simpl; [done|].
  by rewrite Ascii.eqb_refl, IH.
Qed.

Lemma rev_chars_app a b :
  rev (Str.chars (a +:+ b)) = rev (Str.chars b) ++ rev (Str.chars a).
Proof. by rewrite chars_app, rev_app_distr. Qed.

Lemma endsWith_app a p : Str.endsWith (a +:+ p) p = true.
Proof. unfold Str.endsWith. rewrite rev_chars_app. apply is_prefix_app. Qed.

Lemma endsWith_ci_app a p :
  map Str.lower (Str.chars p) = Str.chars p ->
  Str.endsWith_ci (a +:+ p) p = true.
Proof.
  intros H. unfold Str.endsWith_ci.
  rewrite rev_chars_app, map_app, map_rev, H. apply is_prefix_app.
Qed.

Lemma drop_end_app a p : Str.drop_end (String.length p) (a +:+ p) = a.
Proof.
  unfold Str.drop_end. rewrite rev_chars_app, length_chars, <- length_rev.
  rewrite drop_app_length, rev_involutive. apply of_chars_chars.
Qed.

(** What is left after the trailing slashes went does not end in one. *)
Lemma drop_slashes_head l :
  Str.is_prefix (Str.chars "/") (Str.drop_slashes l) = false.
Proof.
  induction l as [|c l IH]; simpl; [done|].
  destruct (Ascii.eqb c "/") eqn:E; [exact IH|].
  simpl. by rewrite (Ascii.eqb_sym "/" c), E.
Qed.

Lemma drop_slashes_id l :
  Str.is_prefix (Str.chars "/") l = false -> Str.drop_slashes l = l.
Proof.
  destruct l as [|c l]; simpl; [done|].
  rewrite (Ascii.eqb_sym "/" c), andb_true_r. by intros ->.
Qed.

Lemma endsWith_trailing_slashes s :
  Str.endsWith (Str.replace_trailing_slashes s) "/" = false.
Proof.
  unfold Str.endsWith, Str.replace_trailing_slashes.
  rewrite chars_of_chars, rev_involutive. apply drop_slashes_head.
Qed.

Lemma startsWith_nonempty s p :
  Str.startsWith s p = true -> p <> "" -> s <> "".
Proof. intros H Hp ->. destruct p; [done|]. discriminate H. Qed.

(** ** The path normaliser *)

Lemma normalizePathname_normal s : is_normal s = true -> normalizePathname s = s.
Proof.
  unfold is_normal, normalizePathname. intros H.
  repeat (apply andb_prop in H; destruct H as [H ?]).
  repeat match goal with
         | H : negb _ = true |- _ => apply negb_true_iff in H
         end.
  match goal with H : Str.endsWith s "index.html" = false |- _ => rewrite H end.
  match goal with H : Str.endsWith s "index.htm" = false |- _ => rewrite H end.
  simpl.
  match goal with H : (_ <? _)%nat && _ = false |- _ => rewrite H end.
  rewrite H. simpl.
  destruct s; [discriminate H|done].
Qed.

Lemma is_prefix_one_snoc x l a :
  l <> [] -> Str.is_prefix [x] (l ++ [a]) = Str.is_prefix [x] l.
Proof. destruct l; [done|]. reflexivity. Qed.

Lemma endsWith_one_cons c s x :
  s <> "" ->
  Str.endsWith (String c s) (String x "") = Str.endsWith s (String x "").
Proof.
  intros Hs. unfold Str.endsWith. simpl.
  apply is_prefix_one_snoc. destruct s; [done|].
  simpl. intros H. by apply app_eq_nil in H as [_ ?].
Qed.

Lemma no_trailing_slash_after_strip p :
  let p2 := if (1 <? String.length p)%nat && Str.endsWith p "/"
            then Str.replace_trailing_slashes p else p in
  (1 <? String.length p2)%nat && Str.endsWith p2 "/" = false.
Proof.
  simpl. destruct ((1 <? String.length p)%nat && Str.endsWith p "/") eqn:E.
  - by rewrite endsWith_trailing_slashes, andb_false_r.
  - exact E.
Qed.

Lemma leading_slash_after_prepend p :
  (1 <? String.length p)%nat && Str.endsWith p "/" = false ->
  let p3 := if negb (Str.startsWith p "/") then "/" +:+ p else p in
  Str.startsWith p3 "/" = true
  /\ (1 <? String.length p3)%nat && Str.endsWith p3 "/" = false
  /\ p3 <> "".
Proof.
  intros H. simpl. destruct (Str.startsWith p "/") eqn:E; simpl.
  - split; [done|split; [done|]]. by eapply startsWith_nonempty.
  - split; [done|split; [|done]].
    destruct p as [|c p]; [done|].
    change ("/" +:+ String c p) with (String "/" (String c p)).
    rewrite endsWith_one_cons by done.
    destruct p as [|c' p]; [|exact H].
    unfold Str.startsWith in E. simpl in E. rewrite andb_true_r in E.
    unfold Str.endsWith. simpl. by rewrite E.
Qed.

(** Whatever the pathname, the result starts with a slash and ends with
    one only when it is the root. *)
Lemma normalizePathname_shape s :
  Str.startsWith (normalizePathname s) "/" = true
  /\ (1 <? String.length (normalizePathname s))%nat
     && Str.endsWith (normalizePathname s) "/" = false.
Proof.
  unfold normalizePathname.
  set (p1 := if Str.endsWith s "index.html" || Str.endsWith s "index.htm"
             then Str.replace_index_html s else s).
  pose proof (no_trailing_slash_after_strip p1) as H2. simpl in H2.
  set (p2 := if (1 <? String.length p1)%nat && Str.endsWith p1 "/"
             then Str.replace_trailing_slashes p1 else p1) in *.
  destruct (leading_slash_after_prepend p2 H2) as (Ha & Hb & Hc). simpl in *.
  set (p3 := if negb (Str.startsWith p2 "/") then "/" +:+ p2 else p2) in *.
  destruct (String.eqb_spec p3 ""); [done|]. by split.
Qed.

Lemma normalizePathname_fixed s :
  Str.endsWith (normalizePathname s) "index.html" = false ->
  Str.endsWith (normalizePathname s) "index.htm" = false ->
  normalizePathname (normalizePathname s) = normalizePathname s.
Proof.
  intros H1 H2. apply normalizePathname_normal. unfold is_normal.
  destruct (normalizePathname_shape s) as [-> ->]. by rewrite H1, H2.
Qed.

Lemma is_normal_inv s :
  is_normal s = true ->
  Str.startsWith s "/" = true
  /\ (1 <? String.length s)%nat && Str.endsWith s "/" = false
  /\ Str.endsWith s "index.html" = false
  /\ Str.endsWith s "index.htm" = false.
Proof.
  unfold is_normal. intros H.
  apply andb_prop in H as [H Hd]. apply andb_prop in H as [H Hc].
  apply andb_prop in H as [Ha Hb].
  by rewrite negb_true_iff in Hb, Hc, Hd.
Qed.

Lemma length_snoc_gt s p :
  s <> "" -> p <> "" -> (1 <? String.length (s +:+ p))%nat = true.
Proof.
  intros Hs Hp. rewrite length_chars, chars_app, length_app, <- !length_chars.
  destruct s; [done|]. destruct p; [done|]. simpl. apply Nat.ltb_lt. lia.
Qed.

Lemma normalizePathname_slash s :
  is_normal s = true -> normalizePathname (s +:+ "/") = s.
Proof.
  intros H. apply is_normal_inv in H as (Ha & Hb & Hc & Hd).
  assert (Hs : s <> "") by (by eapply startsWith_nonempty).
  unfold normalizePathname.
  assert (E1 : Str.endsWith (s +:+ "/") "index.html" = false).
  { unfold Str.endsWith. by rewrite rev_chars_app. }
  assert (E2 : Str.endsWith (s +:+ "/") "index.htm" = false).
  { unfold Str.endsWith. by rewrite rev_chars_app. }
  rewrite E1, E2. simpl.
  rewrite endsWith_app, andb_true_r, length_snoc_gt by done.
  assert (E4 : Str.replace_trailing_slashes (s +:+ "/")
               = if String.eqb s "/" then "" else s).
  { unfold Str.replace_trailing_slashes. rewrite rev_chars_app.
    change (rev (Str.chars "/") ++ rev (Str.chars s))
      with ("/"%char :: rev (Str.chars s)).
    simpl.
    destruct (String.eqb_spec s "/") as [->|Hne]; [done|].
    rewrite drop_slashes_id, rev_involutive; [apply of_chars_chars|].
    apply andb_false_iff in Hb as [Hb|Hb]; [|exact Hb].
    exfalso. apply Nat.ltb_ge in Hb.
    destruct s as [|c [|c' s]]; [done| |simpl in Hb; lia].
    unfold Str.startsWith in Ha. simpl in Ha. rewrite andb_true_r in Ha.
    apply Ascii.eqb_eq in Ha. by subst. }
  rewrite E4. destruct (String.eqb_spec s "/") as [->|Hne]; [done|].
  rewrite Ha. simpl. destruct (String.eqb_spec s ""); done.
Qed.

Lemma normalizePathname_index s :
  is_normal s = true ->
  normalizePathname (s +:+ "/index.html") = s
  /\ normalizePathname (s +:+ "/index.htm") = s.
Proof.
  intros H. pose proof (normalizePathname_slash s H) as Hslash.
  assert (A1 : s +:+ "/index.html" = (s +:+ "/") +:+ "index.html").
  { apply chars_inj. by rewrite !chars_app, <- app_assoc. }
  assert (A2 : s +:+ "/index.htm" = (s +:+ "/") +:+ "index.htm").
  { apply chars_inj. by rewrite !chars_app, <- app_assoc. }
  assert (E1 : Str.endsWith (s +:+ "/") "index.html" = false).
  { unfold Str.endsWith. by rewrite rev_chars_app. }
  assert (E2 : Str.endsWith (s +:+ "/") "index.htm" = false).
  { unfold Str.endsWith. by rewrite rev_chars_app. }
  unfold normalizePathname in Hslash. rewrite E1, E2 in Hslash. simpl in Hslash.
  split.
  - rewrite A1. unfold normalizePathname.
    rewrite endsWith_app. simpl.
    unfold Str.replace_index_html.
    rewrite endsWith_ci_app by done.
    change 10%nat with (String.length "index.html").
    rewrite drop_end_app. exact Hslash.
  - rewrite A2. unfold normalizePathname.
    rewrite endsWith_app, orb_true_r.
    unfold Str.replace_index_html.
    assert (E : Str.endsWith_ci ((s +:+ "/") +:+ "index.htm") "index.html" = false).
    { unfold Str.endsWith_ci. by rewrite rev_chars_app. }
    rewrite E, endsWith_ci_app by done.
    change 9%nat with (String.length "index.htm").
    rewrite drop_end_app. exact Hslash.
Qed.

(** C8: the normaliser sends a normal path [s] (one that starts with a
    slash, ends with one only when it is the root, and does not end in
    index.html or index.htm), [s] followed by a slash, and [s] followed
    by /index.html or /index.htm all to [s], for each of these paths the
    URL parser hands over as it is; with [s] the path /foo these are the
    three examples of the specification, and with [s] the root the
    fourth.  A pathname that is empty becomes the root. *)
Theorem normalizeHtmlPath_canonical (P : Platform) (s x : string) :
  is_normal s = true ->
  In x [s; s +:+ "/"; s +:+ "/index.html"; s +:+ "/index.htm"] ->
  pathname_of P x = Some x ->
  normalizeHtmlPath P (VStr x) = Some s /\ normalizePathname "" = "/".
Proof.
  intros Hs Hx Hurl. split; [|reflexivity].
  unfold pathname_of in Hurl. unfold normalizeHtmlPath. simpl.
  destruct (new_URL P x) as [u|]; [|done]. injection Hurl as ->. f_equal.
  destruct (normalizePathname_index s Hs) as [E1 E2].
  simpl in Hx. destruct Hx as [<-|[<-|[<-|[<-|[]]]]].
  - by apply normalizePathname_normal.
  - by apply normalizePathname_slash.
  - exact E1.
  - exact E2.
Qed.

Lemma normalizeHtmlPath_canonical_witness :
  normalizeHtmlPath example_page (VStr "/foo/index.html") = Some "/foo"
  /\ normalizeHtmlPath example_page (VStr "/foo/") = Some "/foo"
  /\ normalizeHtmlPath example_page (VStr "/foo") = Some "/foo"
  /\ normalizeHtmlPath example_page (VStr "/") = Some "/".
Proof.
  split; [|split; [|split]].
  - apply (normalizeHtmlPath_canonical example_page "/foo" "/foo/index.html");
      [reflexivity|simpl; tauto|reflexivity].
  - apply (normalizeHtmlPath_canonical example_page "/foo" "/foo/");
      [reflexivity|simpl; tauto|reflexivity].
  - apply (normalizeHtmlPath_canonical example_page "/foo" "/foo");
      [reflexivity|simpl; tauto|reflexivity].
  - apply (normalizeHtmlPath_canonical example_page "/" "/");
      [reflexivity|simpl; tauto|reflexivity].
Defined.

(** C2, as stated, fails: /foo/index.html/ is normalised to
    /foo/index.html, which is normalised to /foo. *)
Lemma normalizeHtmlPath_not_idempotent :
  exists n,
    normalizeHtmlPath example_page (VStr "/foo/index.html/") = Some n
    /\ normalizeHtmlPath example_page (VStr n) <> Some n.
Proof. exists "/foo/index.html". split; [reflexivity|]. vm_compute. discriminate. Qed.

(** C2, amended: normalising a normalised path [n] returns [n] whenever
    [n] does not itself end in index.html or index.htm and the URL parser
    hands [n] over as it is. *)
Theorem normalizeHtmlPath_idempotent (P : Platform) (p : value) (n : string) :
  normalizeHtmlPath P p = Some n ->
  Str.endsWith n "index.html" = false ->
  Str.endsWith n "index.htm" = false ->
  pathname_of P n = Some n ->
  normalizeHtmlPath P (VStr n) = Some n.
Proof.
  unfold normalizeHtmlPath, pathname_of. simpl. intros Hp H1 H2 Hn.
  destruct (new_URL P (ToString p)) as [u|]; [|done].
  injection Hp as <-.
  destruct (new_URL P (normalizePathname (pathname u))) as [u'|]; [|done].
  injection Hn as ->. f_equal. by apply normalizePathname_fixed.
Qed.

Lemma normalizeHtmlPath_idempotent_witness :
  normalizeHtmlPath example_page (VStr "/docs/index.html") = Some "/docs"
  /\ normalizeHtmlPath example_page (VStr "/docs") = Some "/docs".
Proof.
  split; [reflexivity|].
  apply (normalizeHtmlPath_idempotent example_page (VStr "/docs/index.html"));
    reflexivity.
Defined.

(** ** The connection manager *)

Lemma on_close_world (P : Platform) (w : world) :
  snd (on_event P SocketClose w)
  = with_timer (Z.min (retryDelay w * 2) 8000)
      (with_retryDelay (Z.min (retryDelay w * 2) 8000) w).
Proof. reflexivity. Qed.

Lemma double_capped (j : nat) :
  Z.min (Z.min (500 * 2 ^ Z.of_nat j) 8000 * 2) 8000
  = Z.min (1000 * 2 ^ Z.of_nat j) 8000.
Proof. lia. Qed.

(** [connect] opens a socket to its address, or throws and leaves the
    page as it is. *)
Lemma connect_world (P : Platform) (w : world) :
  snd (connect P w)
  = if WebSocket_accepts P (ws_target P) then with_socket (ws_target P) w else w.
Proof. unfold connect, ws_target. by destruct (WebSocket_accepts P _). Qed.

Lemma outage_delays (P : Platform) (es : list event) :
  forall (w : world) (j : nat),
    retryDelay w = Z.min (500 * 2 ^ Z.of_nat j) 8000 ->
    forallb is_failure es = true ->
    timers (run P es w) = timers w ++ backoff_from j (closes es).
Proof.
  induction es as [|e es IH]; intros w j Hw Hes.
  - simpl. by rewrite app_nil_r.
  - simpl in Hes. apply andb_prop in Hes as [He Hes].
    change (run P (e :: es) w) with (run P es (snd (on_event P e w))).
    destruct e; try discriminate He.
    + rewrite on_close_world, Hw, double_capped.
      rewrite (IH _ (S j)); [|simpl|done].
      * unfold closes. simpl. unfold backoff_from. simpl.
        by rewrite <- app_assoc.
      * rewrite Nat2Z.inj_succ, Z.pow_succ_r by lia. lia.
    + change (snd (on_event P SocketError w)) with w. by rewrite (IH _ j).
    + change (snd (on_event P TimerFired w)) with (snd (connect P w)).
      rewrite connect_world.
      destruct (WebSocket_accepts P (ws_target P)); by rewrite (IH _ j).
Qed.

(** C1, as stated, fails: three closes in a row on a fresh page arm the
    timer with 1000, 2000 and 4000 milliseconds, not with 500, 1000 and
    2000. *)
Lemma three_closes_delays :
  timers (run example_page [SocketClose; SocketClose; SocketClose]
            (start example_page empty_document 0))
  = [1000; 2000; 4000]
  /\ timers (run example_page [SocketClose; SocketClose; SocketClose]
               (start example_page empty_document 0))
     <> [500; 1000; 2000].
Proof. split; [reflexivity|]. vm_compute. discriminate. Qed.

(** C1, amended: during an outage that starts with RetryDelay at 500,
    the delays of the reconnect attempts are 1000, 2000, 4000, 8000,
    8000, ...: each close first doubles RetryDelay, capped at 8000, and
    then arms the timer with the doubled value. *)
Theorem outage_backoff (P : Platform) (es : list event) (w : world) :
  retryDelay w = 500 ->
  forallb is_failure es = true ->
  timers (run P es w) = timers w ++ backoff (closes es)
  /\ (forall w0, retryDelay (snd (on_event P SocketClose w0))
                 = Z.min (retryDelay w0 * 2) 8000
                 /\ timers (snd (on_event P SocketClose w0))
                    = timers w0 ++ [retryDelay (snd (on_event P SocketClose w0))]).
Proof.
  intros Hw Hes. split.
  - apply (outage_delays P es w 0); [by rewrite Hw|done].
  - intros w0. by rewrite on_close_world.
Qed.

Lemma outage_backoff_witness :
  timers (run example_page
            [SocketClose; TimerFired; SocketError; SocketClose; TimerFired;
             SocketClose; TimerFired; SocketClose; TimerFired; SocketClose;
             TimerFired; SocketClose]
            (start example_page empty_document 0))
  = [1000; 2000; 4000; 8000; 8000; 8000].
Proof.
  apply (outage_backoff example_page
           [SocketClose; TimerFired; SocketError; SocketClose; TimerFired;
            SocketClose; TimerFired; SocketClose; TimerFired; SocketClose;
            TimerFired; SocketClose]
           (start example_page empty_document 0)); reflexivity.
Defined.

(** C7, as stated, fails: the close that follows an open arms the timer
    with 1000 milliseconds, not with 500. *)
Lemma delay_after_open_is_1000 :
  timers (run example_page [SocketClose; SocketClose; SocketOpen; SocketClose]
            (start example_page empty_document 0))
  = [1000; 2000; 1000]
  /\ last (timers (run example_page
                     [SocketClose; SocketClose; SocketOpen; SocketClose]
                     (start example_page empty_document 0)))
     <> Some 500.
Proof. split; [reflexivity|]. vm_compute. discriminate. Qed.

(** C7, amended: an open resets RetryDelay to 500 whatever came before,
    so the outage that follows starts over: its delays are 1000, 2000,
    4000, 8000, 8000, ... *)
Theorem open_resets_backoff (P : Platform) (es : list event) (w : world) :
  forallb is_failure es = true ->
  retryDelay (run P [SocketOpen] w) = 500
  /\ timers (run P (SocketOpen :: es) w) = timers w ++ backoff (closes es).
Proof.
  intros Hes. split; [reflexivity|].
  change (run P (SocketOpen :: es) w) with (run P es (run P [SocketOpen] w)).
  by rewrite (outage_delays P es _ 0).
Qed.

Lemma open_resets_backoff_witness :
  retryDelay (run example_page [SocketOpen]
                (run example_page [SocketClose; SocketClose; SocketClose]
                   (start example_page empty_document 0))) = 500
  /\ timers (run example_page [SocketOpen; SocketClose; TimerFired; SocketClose]
               (run example_page [SocketClose; SocketClose; SocketClose]
                  (start example_page empty_document 0)))
     = [1000; 2000; 4000; 1000; 2000].
Proof.
  apply (open_resets_backoff example_page [SocketClose; TimerFired; SocketClose]
           (run example_page [SocketClose; SocketClose; SocketClose]
              (start example_page empty_document 0))).
  reflexivity.
Defined.

(** ** Full reload and the message dispatcher *)

Lemma hardReload_navigates (P : Platform) (u : URL) (w : world) :
  new_URL P (location_pathname P) = Some u ->
  hardReload P (current_path P) w = (Some tt, reloaded P u w).
Proof.
  intros Hu. unfold hardReload, cacheBustUrl, current_path, bind. simpl.
  by rewrite Hu.
Qed.

Lemma get_prop_string_truthy (message : value) (k s : string) :
  get_prop message k = VStr s -> truthy message = true.
Proof. by destruct message. Qed.

(** C5: a message whose type is the string reload makes the dispatcher
    do a full reload of the current path, whatever the patch mode; so
    does a message whose type is the string diff when patch mode is off,
    whatever its resource and path.  When the current path resolves to
    [u], the full reload replaces the location by [u] with a new _v. *)
Theorem reload_dispatch (P : Platform) (message : value) (type : string)
    (w : world) :
  get_prop message "type" = VStr type ->
  type = "reload" \/ (type = "diff" /\ diffMode P = false) ->
  handleMessage P message w = hardReload P (current_path P) w
  /\ (forall u, new_URL P (location_pathname P) = Some u ->
                handleMessage P message w = (Some tt, reloaded P u w)).
Proof.
  intros Ht Hcase.
  assert (H : handleMessage P message w = hardReload P (current_path P) w).
  { unfold handleMessage.
    rewrite (get_prop_string_truthy _ _ _ Ht), Ht. simpl.
    destruct Hcase as [->|[-> Hd]]; [done|]. simpl. by rewrite Hd. }
  split; [exact H|].
  intros u Hu. rewrite H. by apply hardReload_navigates.
Qed.

Lemma reload_dispatch_witness :
  handleMessage example_page
    (VObj [("type", VStr "reload"); ("resource", VStr "html"); ("path", VStr "/x")])
    (start example_page empty_document 0)
  = (Some tt,
     with_navigation "http://localhost:3000/?_v=1700000000000"
       (with_clock 1 (start example_page empty_document 0)))
  /\ handleMessage (Ref.platform "/" VUndefined (fun _ => None))
       (VObj [("type", VStr "diff"); ("resource", VStr "html"); ("path", VStr "/x")])
       (start example_page empty_document 0)
     = (Some tt,
        with_navigation "http://localhost:3000/?_v=1700000000000"
          (with_clock 1 (start example_page empty_document 0))).
Proof.
  split.
  - refine (proj2 (reload_dispatch example_page
                     (VObj [("type", VStr "reload"); ("resource", VStr "html");
                            ("path", VStr "/x")])
                     "reload" (start example_page empty_document 0) _ _)
                  (mkURL "http:" "localhost:3000" "/" [] "") _);
      [reflexivity|left; reflexivity|reflexivity].
  - refine (proj2 (reload_dispatch (Ref.platform "/" VUndefined (fun _ => None))
                     (VObj [("type", VStr "diff"); ("resource", VStr "html");
                            ("path", VStr "/x")])
                     "diff" (start example_page empty_document 0) _ _)
                  (mkURL "http:" "localhost:3000" "/" [] "") _);
      [reflexivity|right; split; reflexivity|reflexivity].
Defined.

(** The parts of the fallback rule that hold: with patch mode on, a diff
    whose resource is neither html nor css, and a css diff without a
    path, do a full reload; so does the HTML diff applier itself when it
    is given no path. *)
Lemma diff_fallbacks (P : Platform) (message : value) (w : world) :
  get_prop message "type" = VStr "diff" ->
  diffMode P = true ->
  (equals (get_prop message "resource") "html" = false ->
   equals (get_prop message "resource") "css" = false ->
   handleMessage P message w = hardReload P (current_path P) w)
  /\ (equals (get_prop message "resource") "css" = true ->
      truthy (get_prop message "path") = false ->
      handleMessage P message w = hardReload P (current_path P) w)
  /\ (forall path, truthy path = false ->
        applyHtmlDiff P path w = hardReload P (current_path P) w).
Proof.
  intros Ht Hd. unfold handleMessage.
  rewrite (get_prop_string_truthy _ _ _ Ht), Ht, Hd. simpl.
  split; [|split].
  - by intros -> ->.
  - intros Hcss Hp.
    assert (Hhtml : equals (get_prop message "resource") "html" = false).
    { destruct (get_prop message "resource"); try done. simpl in *.
      apply String.eqb_eq in Hcss. by subst. }
    rewrite Hhtml, Hcss. unfold applyCssDiff. by rewrite Hp.
  - intros path Hp. unfold applyHtmlDiff. by rewrite Hp.
Qed.

(** C3 at the input where the code departs from it: with patch mode on,
    an html diff that has no path is compared with the current path as
    the text undefined, and unless the page itself is at that path the
    dispatcher logs that it skips the diff and reloads nothing. *)
Theorem html_diff_without_path_skipped (P : Platform) (message : value)
    (w : world) (n c : string) :
  get_prop message "type" = VStr "diff" ->
  get_prop message "resource" = VStr "html" ->
  get_prop message "path" = VUndefined ->
  diffMode P = true ->
  normalizeHtmlPath P VUndefined = Some n ->
  normalizeHtmlPath P (current_path P) = Some c ->
  n <> c ->
  handleMessage P message w
  = (Some tt, with_console "skipping HTML diff for non-matching path" w)
  /\ navigations (snd (handleMessage P message w)) = navigations w.
Proof.
  intros Ht Hr Hp Hd Hn Hc Hne.
  assert (H : handleMessage P message w
              = (Some tt, with_console "skipping HTML diff for non-matching path" w)).
  { unfold handleMessage.
    rewrite (get_prop_string_truthy _ _ _ Ht), Ht, Hr, Hp, Hd. simpl.
    unfold bind, lift, pathsMatch. rewrite Hn, Hc.
    destruct (String.eqb_spec n c); done. }
  by rewrite H.
Qed.

Lemma html_diff_without_path_skipped_witness :
  handleMessage example_page
    (VObj [("type", VStr "diff"); ("resource", VStr "html")])
    (start example_page empty_document 0)
  = (Some tt,
     with_console "skipping HTML diff for non-matching path"
       (start example_page empty_document 0))
  /\ navigations
       (snd (handleMessage example_page
               (VObj [("type", VStr "diff"); ("resource", VStr "html")])
               (start example_page empty_document 0))) = [].
Proof.
  apply (html_diff_without_path_skipped example_page
           (VObj [("type", VStr "diff"); ("resource", VStr "html")])
           (start example_page empty_document 0) "/undefined" "/");
    (reflexivity || discriminate).
Defined.

(** ** Absent body, absent head *)

(** C9: given no body, [replaceBody] does a full reload of the current
    path (it replaces the location by [u] with a new _v when that path
    resolves to [u]); given no head, [mergeHead] returns with the page
    as it was. *)
Theorem absent_body_reloads_absent_head_ignored (P : Platform) (w : world) :
  replaceBody P None w = hardReload P (current_path P) w
  /\ (forall u, new_URL P (location_pathname P) = Some u ->
                replaceBody P None w = (Some tt, reloaded P u w))
  /\ mergeHead None w = (Some tt, w).
Proof.
  split; [reflexivity|split; [|reflexivity]].
  intros u Hu. by apply hardReload_navigates.
Qed.

Lemma absent_body_reloads_absent_head_ignored_witness :
  replaceBody example_page None (start example_page empty_document 0)
  = (Some tt,
     with_navigation "http://localhost:3000/?_v=1700000000000"
       (with_clock 1 (start example_page empty_document 0))).
Proof.
  refine (proj1 (proj2 (absent_body_reloads_absent_head_ignored example_page
                          (start example_page empty_document 0)))
                (mkURL "http:" "localhost:3000" "/" [] "") _).
  reflexivity.
Defined.

(** ** The cache-bust URL builder *)

Lemma searchParams_set_others (name v : string) (l : list (string * string)) :
  List.filter (fun kv => negb (named name kv)) (searchParams_set name v l)
  = List.filter (fun kv => negb (named name kv)) l.
Proof.
  induction l as [|kv l IH]; simpl.
  - unfold named. simpl. by rewrite String.eqb_refl.
  - destruct (named name kv) eqn:E; simpl.
    + unfold named at 1. simpl. rewrite String.eqb_refl. simpl.
      clear. induction l as [|kv l IH]; simpl; [done|].
      destruct (named name kv) eqn:E; simpl; [done|]. by rewrite E, IH.
    + by rewrite E, IH.
Qed.

Lemma searchParams_set_named (name v : string) (l : list (string * string)) :
  List.filter (named name) (searchParams_set name v l) = [(name, v)].
Proof.
  induction l as [|kv l IH]; simpl.
  - unfold named. simpl. by rewrite String.eqb_refl.
  - destruct (named name kv) eqn:E; simpl.
    + unfold named at 1. simpl. rewrite String.eqb_refl. f_equal.
      clear. induction l as [|kv l IH]; simpl; [done|].
      destruct (named name kv) eqn:E; simpl; [done|]. by rewrite E.
    + by rewrite E.
Qed.

(** C10: when the path resolves to [u], the builder returns the text of
    a URL [u'] that has the protocol, host, pathname and fragment of [u]
    and, in the same order, its query parameters other than _v; _v is
    there once, with the reading of the clock.  Of the page only the
    count of clock readings changes. *)
Theorem cacheBustUrl_frame (P : Platform) (path : value) (u : URL) (w : world) :
  new_URL P (ToString path) = Some u ->
  exists u',
    cacheBustUrl P path w = (Some (URL_toString P u'), with_clock (S (clock w)) w)
    /\ protocol u' = protocol u
    /\ host u' = host u
    /\ pathname u' = pathname u
    /\ hash u' = hash u
    /\ List.filter (fun kv => negb (named "_v" kv)) (searchParams u')
       = List.filter (fun kv => negb (named "_v" kv)) (searchParams u)
    /\ List.filter (named "_v") (searchParams u')
       = [("_v", Str.of_Z (Date_now P (clock w)))].
Proof.
  intros Hu. exists (URL_set u "_v" (Str.of_Z (Date_now P (clock w)))).
  unfold cacheBustUrl. rewrite Hu. simpl.
  repeat split.
  - apply searchParams_set_others.
  - apply searchParams_set_named.
Qed.

Lemma cacheBustUrl_frame_witness :
  exists u',
    cacheBustUrl example_page (VStr "/x?a=1&_v=3&b=2&_v=4#top")
      (start example_page empty_document 0)
    = (Some (URL_toString example_page u'),
       with_clock 1 (start example_page empty_document 0))
    /\ protocol u' = "http:"
    /\ host u' = "localhost:3000"
    /\ pathname u' = "/x"
    /\ hash u' = "#top"
    /\ List.filter (fun kv => negb (named "_v" kv)) (searchParams u')
       = [("a", "1"); ("b", "2")]
    /\ List.filter (named "_v") (searchParams u') = [("_v", "1700000000000")].
Proof.
  apply (cacheBustUrl_frame example_page (VStr "/x?a=1&_v=3&b=2&_v=4#top")
           (mkURL "http:" "localhost:3000" "/x"
                  [("a", "1"); ("_v", "3"); ("b", "2"); ("_v", "4")] "#top")
           (start example_page empty_document 0)).
  reflexivity.
Defined.

(** ** The CSS diff *)

Lemma node_induction (Q : node -> Prop) :
  (forall d, Q (Text d)) ->
  (forall i a t, Q (Script i a t)) ->
  (forall i tg a kids, Forall Q kids -> Q (Elem i tg a kids)) ->
  forall n, Q n.
Proof.
  intros HT HS HE.
  fix IH 1. intros [d|i a t|i tg a kids]; [apply HT|apply HS|].
  apply HE. induction kids as [|x kids IHk]; constructor; [apply IH|apply IHk].
Qed.

Lemma links_of_Elem i tg a kids :
  links_of (Elem i tg a kids)
  = (if is_stylesheet tg a then [(i, a)] else []) ++ links kids.
Proof.
  simpl. apply (f_equal (app _)).
  induction kids as [|x r IH]; [done|]. by rewrite IH.
Qed.

Lemma css_node_Elem P tp i tg a kids st :
  css_node P tp (Elem i tg a kids) st
  = let '(a', st1) :=
      if is_stylesheet tg a then css_link P tp a st else (a, st) in
    let '(kids', st2) := css_nodes P tp kids st1 in
    (Elem i tg a' kids', st2).
Proof.
  simpl. destruct (if is_stylesheet tg a then css_link P tp a st else (a, st))
    as [a' st1].
  assert (E : forall l s,
    (fix css_kids (l : list node) (s : css_state) : list node * css_state :=
       match l with
       | [] => ([], s)
       | x :: r =>
           let '(x', s1) := css_node P tp x s in
           let '(r', s2) := css_kids r s1 in
           (x' :: r', s2)
       end) l s = css_nodes P tp l s).
  { induction l as [|x r IH]; intros s; simpl; [done|].
    destruct (css_node P tp x s) as [x' s1]. by rewrite IH. }
  by rewrite E.
Qed.

Lemma getAttribute_setAttribute_ne name other v a :
  name <> other ->
  getAttribute other (setAttribute name v a) = getAttribute other a.
Proof.
  intros Hne. induction a as [|[k v'] a IH]; simpl.
  - destruct (String.eqb_spec name other); done.
  - destruct (String.eqb_spec k name) as [->|Hk]; simpl.
    + by destruct (String.eqb_spec name other).
    + by rewrite IH.
Qed.

Lemma is_stylesheet_set_href tg v a :
  is_stylesheet tg (setAttribute "href" v a) = is_stylesheet tg a.
Proof. unfold is_stylesheet. by rewrite getAttribute_setAttribute_ne. Qed.

Lemma refreshed_weaken P tp k1 k2 k0 k3 old new :
  (k0 <= k1)%nat -> (k2 <= k3)%nat ->
  refreshed P tp k1 k2 old new -> refreshed P tp k0 k3 old new.
Proof.
  unfold refreshed. intros H1 H2. destruct (matches P tp old); [|done].
  intros (Hi & j & u & Hj & Hu & Ha). split; [done|].
  exists j, u. split; [lia|done].
Qed.

Lemma css_run_refl P tp st :
  css_thrown st = false -> css_run P tp [] [] st st.
Proof. intros H. split; [done|split; [done|split; [|constructor]]]. simpl. by rewrite orb_false_r. Qed.

Lemma css_run_app P tp ls1 ls1' ls2 ls2' st st1 st2 :
  css_run P tp ls1 ls1' st st1 ->
  css_run P tp ls2 ls2' st1 st2 ->
  css_run P tp (ls1 ++ ls2) (ls1' ++ ls2') st st2.
Proof.
  intros (T1 & C1 & U1 & F1) (T2 & C2 & U2 & F2).
  split; [done|split; [lia|split]].
  - by rewrite U2, U1, existsb_app, orb_assoc.
  - apply Forall2_app.
    + eapply Forall2_impl; [exact F1|]. intros x y. apply refreshed_weaken; lia.
    + eapply Forall2_impl; [exact F2|]. intros x y. apply refreshed_weaken; lia.
Qed.

Lemma css_link_run P tp i tg a st :
  css_thrown st = false ->
  resolves P (i, a) = true ->
  css_run P tp [(i, a)] [(i, fst (css_link P tp a st))] st (snd (css_link P tp a st))
  /\ is_stylesheet tg (fst (css_link P tp a st)) = is_stylesheet tg a
  /\ (matches P tp (i, a) = false -> css_link P tp a st = (a, st)).
Proof.
  intros Ht Hr. unfold css_run, css_link, resolves, matches in *. simpl in *.
  rewrite Ht.
  destruct (new_URL P (link_href P a)) as [u|] eqn:Eu; [|done].
  destruct (String.eqb (pathname u) tp) eqn:Em; simpl.
  - split; [|split; [apply is_stylesheet_set_href|done]].
    split; [done|split; [lia|split]].
    + simpl. by rewrite orb_true_r.
    + constructor; [|constructor]. unfold refreshed, matches. simpl.
      rewrite Eu, Em. split; [done|]. exists (css_clock st), u. split; [lia|done].
  - split; [|split; [done|done]].
    split; [done|split; [lia|split]].
    + by rewrite !orb_false_r.
    + constructor; [|constructor]. unfold refreshed, matches. simpl.
      by rewrite Eu, Em.
Qed.

Lemma css_nodes_from_each P tp l :
  Forall (css_node_spec P tp) l -> css_nodes_spec P tp l.
Proof.
  induction 1 as [|x r Hx Hr IH]; intros st Ht Hres; simpl in *.
  - split; [by apply css_run_refl|done].
  - rewrite forallb_app in Hres. apply andb_prop in Hres as [Hres1 Hres2].
    destruct (Hx st Ht Hres1) as [Hrun1 Hid1].
    destruct (css_node P tp x st) as [x' s1] eqn:E1. simpl in *.
    assert (Ht1 : css_thrown s1 = false) by apply Hrun1.
    destruct (IH s1 Ht1 Hres2) as [Hrun2 Hid2].
    destruct (css_nodes P tp r s1) as [r' s2] eqn:E2. simpl in *.
    split; [by eapply css_run_app|].
    rewrite existsb_app. intros Hno. apply orb_false_iff in Hno as [Hn1 Hn2].
    specialize (Hid1 Hn1). injection Hid1 as -> ->.
    specialize (Hid2 Hn2). by injection Hid2 as -> ->.
Qed.

Lemma css_node_run P tp n : css_node_spec P tp n.
Proof.
  induction n as [d|i a t|i tg a kids IH] using node_induction.
  - intros st Ht _. split; [by apply css_run_refl|done].
  - intros st Ht _. split; [by apply css_run_refl|done].
  - apply css_nodes_from_each in IH.
    intros st Ht Hres. rewrite css_node_Elem.
    rewrite links_of_Elem in *.
    rewrite forallb_app in Hres. apply andb_prop in Hres as [Hres1 Hres2].
    destruct (is_stylesheet tg a) eqn:Es.
    + cbn [forallb] in Hres1. rewrite andb_true_r in Hres1.
      destruct (css_link_run P tp i tg a st Ht Hres1) as (Hrun1 & Hs & Hid1).
      destruct (css_link P tp a st) as [a' st1] eqn:E1. cbn [fst snd] in *.
      assert (Ht1 : css_thrown st1 = false) by apply Hrun1.
      destruct (IH st1 Ht1 Hres2) as [Hrun2 Hid2].
      destruct (css_nodes P tp kids st1) as [kids' st2] eqn:E2. cbn [fst snd] in *.
      rewrite links_of_Elem, Hs, Es.
      split; [by eapply (css_run_app _ _ [_] [_])|].
      intros Hno. apply orb_false_iff in Hno as [Hn1 Hn2].
      specialize (Hid1 Hn1). injection Hid1 as -> ->.
      specialize (Hid2 Hn2). by injection Hid2 as -> ->.
    + destruct (IH st Ht Hres2) as [Hrun2 Hid2].
      destruct (css_nodes P tp kids st) as [kids' st2] eqn:E2. cbn [fst snd] in *.
      rewrite links_of_Elem, Es.
      split; [done|].
      intros Hno. specialize (Hid2 Hno). by injection Hid2 as -> ->.
Qed.

Lemma css_nodes_run P tp l : css_nodes_spec P tp l.
Proof. apply css_nodes_from_each, Forall_forall. intros n _. apply css_node_run. Qed.

Lemma world_eta (w : world) :
  with_clock (clock w)
    (with_dom (next_nid w)
       (mkDocument (head (doc w)) (body (doc w))) w) = w.
Proof. by destruct w as [? ? ? ? ? ? ? []]. Qed.

Lemma css_nodes_thrown_from P tp l :
  Forall (fun n => forall st,
            css_thrown (snd (css_node P tp n st))
            = css_thrown st
              || existsb (fun x => negb (resolves P x)) (links_of n)) l ->
  forall st,
    css_thrown (snd (css_nodes P tp l st))
    = css_thrown st || existsb (fun x => negb (resolves P x)) (links l).
Proof.
  induction 1 as [|x r Hx Hr IH]; intros st; simpl; [by rewrite orb_false_r|].
  specialize (Hx st). destruct (css_node P tp x st) as [x' s1].
  specialize (IH s1). destruct (css_nodes P tp r s1) as [r' s2].
  simpl in *. by rewrite IH, Hx, existsb_app, orb_assoc.
Qed.

Lemma css_link_thrown P tp i a st :
  css_thrown (snd (css_link P tp a st))
  = css_thrown st || negb (resolves P (i, a)).
Proof.
  unfold css_link, resolves. simpl.
  destruct (css_thrown st) eqn:Et; [exact Et|].
  destruct (new_URL P (link_href P a)) as [u|]; [|done].
  destruct (String.eqb (pathname u) tp); [done|exact Et].
Qed.

Lemma css_node_thrown P tp n :
  forall st,
    css_thrown (snd (css_node P tp n st))
    = css_thrown st || existsb (fun x => negb (resolves P x)) (links_of n).
Proof.
  induction n as [d|i a t|i tg a kids IH] using node_induction; intros st;
    [by rewrite orb_false_r..|].
  rewrite css_node_Elem, links_of_Elem, existsb_app.
  destruct (is_stylesheet tg a).
  - pose proof (css_link_thrown P tp i a st) as Hl.
    destruct (css_link P tp a st) as [a' st1]. simpl in Hl.
    pose proof (css_nodes_thrown_from P tp kids IH st1) as Hk.
    destruct (css_nodes P tp kids st1) as [kids' st2]. simpl in *.
    by rewrite Hk, Hl, orb_false_r, orb_assoc.
  - pose proof (css_nodes_thrown_from P tp kids IH st) as Hk.
    destruct (css_nodes P tp kids st) as [kids' st2]. simpl in *. done.
Qed.

Lemma css_nodes_thrown P tp l st :
  css_thrown (snd (css_nodes P tp l st))
  = css_thrown st || existsb (fun x => negb (resolves P x)) (links l).
Proof.
  apply css_nodes_thrown_from, Forall_forall. intros n _. apply css_node_thrown.
Qed.

(** With stylesheet links that all parse, the diff refreshes the ones
    that match, or reloads when none does. *)
Lemma refresh_of_parsed_links (P : Platform) (path : value) (target : URL)
    (w : world) :
  truthy path = true ->
  new_URL P (ToString path) = Some target ->
  forallb (resolves P) (stylesheet_links (doc w)) = true ->
  (existsb (matches P (pathname target)) (stylesheet_links (doc w)) = true ->
   exists w',
     applyCssDiff P path w = (Some tt, w')
     /\ navigations w' = navigations w
     /\ Forall2 (refreshed P (pathname target) (clock w) (clock w'))
          (stylesheet_links (doc w)) (stylesheet_links (doc w')))
  /\ (existsb (matches P (pathname target)) (stylesheet_links (doc w)) = false ->
      applyCssDiff P path w = hardReload P (current_path P) w).
Proof.
  intros Hp Hu Hres. unfold stylesheet_links in *.
  rewrite forallb_app in Hres. apply andb_prop in Hres as [Hres1 Hres2].
  unfold applyCssDiff, bind, refresh_stylesheets. rewrite Hp, Hu.
  cbn [negb].
  set (tp := pathname target). set (st0 := mkCss (clock w) false false).
  destruct (css_nodes_run P tp (head (doc w)) st0 eq_refl Hres1) as [Hr1 Hid1].
  destruct (css_nodes P tp (head (doc w)) st0) as [h s1] eqn:E1.
  cbn [fst snd] in *.
  assert (Ht1 : css_thrown s1 = false) by apply Hr1.
  destruct (css_nodes_run P tp (body (doc w)) s1 Ht1 Hres2) as [Hr2 Hid2].
  destruct (css_nodes P tp (body (doc w)) s1) as [b s2] eqn:E2.
  cbn [fst snd] in *.
  destruct (css_run_app _ _ _ _ _ _ _ _ _ Hr1 Hr2) as (Ht & Hc & Hup & HF).
  rewrite Ht. split.
  - intros Hex. rewrite Hex in Hup. cbn in Hup. rewrite Hup. cbn [negb].
    eexists. split; [reflexivity|]. split; [reflexivity|]. exact HF.
  - intros Hno. rewrite existsb_app in Hno.
    apply orb_false_iff in Hno as [Hn1 Hn2].
    specialize (Hid1 Hn1). injection Hid1 as -> ->.
    specialize (Hid2 Hn2). injection Hid2 as -> ->.
    cbn. by rewrite world_eta.
Qed.

(** A path that [new URL] rejects makes the CSS diff throw before it
    looks at a link, so that it neither rewrites nor reloads; the
    listener of the socket then logs the message as malformed. *)
Lemma applyCssDiff_rejected_path (P : Platform) (path : value) (w : world) :
  truthy path = true ->
  new_URL P (ToString path) = None ->
  applyCssDiff P path w = (None, w).
Proof. intros Hp Hu. unfold applyCssDiff. by rewrite Hp, Hu. Qed.

(** A stylesheet link whose href [new URL] rejects makes the loop over
    the links throw, and nothing reloads. *)
Lemma applyCssDiff_unparsable_link (P : Platform) (path : value)
    (target : URL) (w : world) :
  truthy path = true ->
  new_URL P (ToString path) = Some target ->
  existsb (fun l => negb (resolves P l)) (stylesheet_links (doc w)) = true ->
  fst (applyCssDiff P path w) = None
  /\ navigations (snd (applyCssDiff P path w)) = navigations w.
Proof.
  intros Hp Hu Hbad. unfold applyCssDiff. rewrite Hp, Hu. simpl.
  unfold bind, refresh_stylesheets.
  pose proof (css_nodes_thrown P (pathname target) (head (doc w))
                (mkCss (clock w) false false)) as Hh.
  destruct (css_nodes P (pathname target) (head (doc w)) _) as [h s1].
  pose proof (css_nodes_thrown P (pathname target) (body (doc w)) s1) as Hb.
  destruct (css_nodes P (pathname target) (body (doc w)) s1) as [b s2].
  simpl in *. unfold stylesheet_links in Hbad. rewrite existsb_app in Hbad.
  rewrite Hb, Hh, Hbad. done.
Qed.

(** C6, as stated, fails: on a page whose first stylesheet link has an
    href that [new URL] rejects, the loop over the links throws at that
    link.  A diff for /styles/app.css then leaves the link to
    /styles/app.css, which comes later, without a new _v; a diff for
    /styles/other.css, which no link has, does not reload.  Neither run
    returns. *)
Lemma css_diff_stops_at_unparsable_href :
  (existsb (matches example_page "/styles/app.css")
     (stylesheet_links unparsable_document) = true
   /\ fst (applyCssDiff example_page (VStr "/styles/app.css")
             (start example_page unparsable_document 2)) = None
   /\ stylesheet_links
        (doc (snd (applyCssDiff example_page (VStr "/styles/app.css")
                     (start example_page unparsable_document 2))))
      = stylesheet_links unparsable_document)
  /\ (existsb (matches example_page "/styles/other.css")
        (stylesheet_links unparsable_document) = false
      /\ fst (applyCssDiff example_page (VStr "/styles/other.css")
                (start example_page unparsable_document 2)) = None
      /\ navigations
           (snd (applyCssDiff example_page (VStr "/styles/other.css")
                   (start example_page unparsable_document 2)))
         = []).
Proof. split; (split; [reflexivity|split; reflexivity]). Qed.

(** C6, amended: take a CSS diff with a present path.  When [new URL]
    accepts the path, giving a URL of pathname [pathname target], and
    accepts the href of every stylesheet link of the page: if one of
    these links has that pathname, the diff returns without a reload,
    and every link with that pathname is the same element with its href
    set to its URL with a newly read _v, while the other links are as
    they were; if none has, the diff is a full reload of the current
    path.  When [new URL] rejects the path, or the href of some
    stylesheet link, the diff throws and no reload is started. *)
Theorem stylesheet_refresh (P : Platform) (path : value) (w : world) :
  truthy path = true ->
  (forall target,
     new_URL P (ToString path) = Some target ->
     forallb (resolves P) (stylesheet_links (doc w)) = true ->
     (existsb (matches P (pathname target)) (stylesheet_links (doc w)) = true ->
      exists w',
        applyCssDiff P path w = (Some tt, w')
        /\ navigations w' = navigations w
        /\ Forall2 (refreshed P (pathname target) (clock w) (clock w'))
             (stylesheet_links (doc w)) (stylesheet_links (doc w')))
     /\ (existsb (matches P (pathname target)) (stylesheet_links (doc w)) = false ->
         applyCssDiff P path w = hardReload P (current_path P) w))
  /\ (new_URL P (ToString path) = None
      \/ existsb (fun l => negb (resolves P l)) (stylesheet_links (doc w)) = true ->
      fst (applyCssDiff P path w) = None
      /\ navigations (snd (applyCssDiff P path w)) = navigations w).
Proof.
  intros Hp. split.
  - intros target Hu Hres. by apply refresh_of_parsed_links.
  - intros [Hu|Hbad].
    + by rewrite applyCssDiff_rejected_path.
    + destruct (new_URL P (ToString path)) as [target|] eqn:Hu.
      * by apply (applyCssDiff_unparsable_link P path target).
      * by rewrite applyCssDiff_rejected_path.
Qed.

Lemma stylesheet_refresh_witness :
  (exists w',
     applyCssDiff example_page (VStr "/styles/app.css")
       (start example_page styled_document 5) = (Some tt, w')
     /\ navigations w' = []
     /\ stylesheet_links (doc w')
        = [(0%nat, [("rel", "stylesheet");
                    ("href", "http://localhost:3000/styles/app.css?x=1&_v=1700000000000")]);
           (2%nat, [("rel", "Stylesheet"); ("href", "/styles/site.css")]);
           (4%nat, [("href", "http://localhost:3000/styles/app.css?_v=1700000000001");
                    ("rel", "stylesheet")])])
  /\ applyCssDiff example_page (VStr "/styles/other.css")
       (start example_page styled_document 5)
     = (Some tt,
        with_navigation "http://localhost:3000/?_v=1700000000000"
          (with_clock 1 (start example_page styled_document 5))).
Proof.
  pose proof (proj1 (stylesheet_refresh example_page (VStr "/styles/app.css")
                       (start example_page styled_document 5) eq_refl)
                (mkURL "http:" "localhost:3000" "/styles/app.css" [] "")
                eq_refl eq_refl) as [H _].
  pose proof (proj1 (stylesheet_refresh example_page (VStr "/styles/other.css")
                       (start example_page styled_document 5) eq_refl)
                (mkURL "http:" "localhost:3000" "/styles/other.css" [] "")
                eq_refl eq_refl) as [_ H'].
  split.
  - destruct (H eq_refl) as (w' & Hw & Hn & _).
    exists w'. split; [exact Hw|]. split; [exact Hn|].
    vm_compute in Hw. injection Hw as <-. reflexivity.
  - rewrite (H' eq_refl). reflexivity.
Defined.

(** ** Preserved elements *)

Lemma preserved_of_Elem i tg a kids :
  preserved_of (Elem i tg a kids)
  = (if is_preserved (Elem i tg a kids) then [Elem i tg a []] else [])
    ++ preserved_below kids.
Proof.
  simpl. apply (f_equal (app _)).
  induction kids as [|x r IH]; [done|]. by rewrite IH.
Qed.

Lemma reactivate_Elem (P : Platform) i tg a kids k :
  reactivate P (Elem i tg a kids) k
  = let '(kids', k') := reactivateAll P kids k in (Elem i tg a kids', k').
Proof.
  simpl.
  assert (E : forall l j,
    (fix reactivate_kids (l : list node) (j : nat) : list node * nat :=
       match l with
       | [] => ([], j)
       | x :: r =>
           let '(x', j1) := reactivate P x j in
           let '(r', j2) := reactivate_kids r j1 in
           (x' :: r', j2)
       end) l j = reactivateAll P l j).
  { induction l as [|x r IH]; intros j; simpl; [done|].
    destruct (reactivate P x j) as [x' j1]. by rewrite IH. }
  by rewrite E.
Qed.

Lemma is_preserved_Elem i j tg a kids kids' :
  is_preserved (Elem i tg a kids) = is_preserved (Elem j tg a kids').
Proof. reflexivity. Qed.

(** Reactivation keeps every preserved element at or below a node. *)
Lemma reactivate_preserved_of (P : Platform) n :
  forall k, preserved_of (fst (reactivate P n k)) = preserved_of n.
Proof.
  induction n as [d|i a t|i tg a kids IH] using node_induction; intros k.
  - done.
  - simpl. unfold node_id. simpl.
    destruct (nonempty (default "" (getAttribute "id" a))
              && preserved (default "" (getAttribute "id" a))) eqn:E; [done|].
    simpl. unfold is_preserved, node_id. simpl. by rewrite E.
  - rewrite reactivate_Elem.
    assert (Hk : forall j, preserved_below (fst (reactivateAll P kids j))
                           = preserved_below kids).
    { clear -IH. induction IH as [|x r Hx Hr IHr]; intros j; simpl; [done|].
      specialize (Hx j). destruct (reactivate P x j) as [x' j1]. simpl in Hx.
      specialize (IHr j1). destruct (reactivateAll P r j1) as [r' j2].
      simpl in *. by rewrite Hx, IHr. }
    specialize (Hk k). destruct (reactivateAll P kids k) as [kids' k'].
    cbn [fst] in *. rewrite !preserved_of_Elem, Hk.
    by rewrite (is_preserved_Elem i i tg a kids' kids).
Qed.

Lemma reactivateAll_preserved_below (P : Platform) l :
  forall k, preserved_below (fst (reactivateAll P l k)) = preserved_below l.
Proof.
  induction l as [|x r IH]; intros k; simpl; [done|].
  pose proof (reactivate_preserved_of P x k) as Hx.
  destruct (reactivate P x k) as [x' k1]. simpl in Hx.
  specialize (IH k1). destruct (reactivateAll P r k1) as [r' k2].
  simpl in *. by rewrite Hx, IH.
Qed.

Lemma reactivate_top (P : Platform) n k :
  is_preserved (fst (reactivate P n k)) = is_preserved n
  /\ (is_preserved n = true -> shallow (fst (reactivate P n k)) = shallow n).
Proof.
  destruct n as [d|i a t|i tg a kids].
  - done.
  - simpl. unfold is_preserved, node_id. simpl.
    destruct (nonempty (default "" (getAttribute "id" a))
              && preserved (default "" (getAttribute "id" a))) eqn:E; [done|].
    simpl. unfold node_id. simpl. by rewrite E.
  - rewrite reactivate_Elem. by destruct (reactivateAll P kids k).
Qed.

Lemma reactivateAll_preserved_children (P : Platform) l :
  forall k, preserved_children (fst (reactivateAll P l k)) = preserved_children l.
Proof.
  unfold preserved_children.
  induction l as [|x r IH]; intros k; simpl; [done|].
  destruct (reactivate_top P x k) as [Hp Hs].
  destruct (reactivate P x k) as [x' k1]. simpl in Hp, Hs.
  specialize (IH k1). destruct (reactivateAll P r k1) as [r' k2].
  simpl in *. rewrite Hp. destruct (is_preserved x); simpl; [|done].
  by rewrite Hs, IH.
Qed.

(** *** Identities *)

Lemma reactivate_mono (P : Platform) n : forall k, (k <= snd (reactivate P n k))%nat.
Proof.
  induction n as [d|i a t|i tg a kids IH] using node_induction; intros k.
  - done.
  - simpl. destruct (_ && _); simpl; lia.
  - rewrite reactivate_Elem.
    assert (Hk : forall j, (j <= snd (reactivateAll P kids j))%nat).
    { clear -IH. induction IH as [|x r Hx Hr IHr]; intros j; simpl; [done|].
      specialize (Hx j). destruct (reactivate P x j) as [x' j1]. simpl in Hx.
      specialize (IHr j1). destruct (reactivateAll P r j1) as [r' j2].
      simpl in *. lia. }
    specialize (Hk k). by destruct (reactivateAll P kids k).
Qed.

Lemma reactivate_nid (P : Platform) n k :
  node_nid (fst (reactivate P n k)) = node_nid n
  \/ (exists i, node_nid n = Some i)
     /\ exists j, node_nid (fst (reactivate P n k)) = Some j
                  /\ (k <= j < snd (reactivate P n k))%nat.
Proof.
  destruct n as [d|i a t|i tg a kids].
  - by left.
  - simpl. destruct (_ && _); simpl; [by left|].
    right. split; [by exists i|]. exists k. split; [done|lia].
  - left. rewrite reactivate_Elem. by destruct (reactivateAll P kids k).
Qed.

Lemma reactivateAll_nids (P : Platform) l :
  forall k,
    NoDup (child_nids l) ->
    Forall (fun i => (i < k)%nat) (child_nids l) ->
    (k <= snd (reactivateAll P l k))%nat
    /\ NoDup (child_nids (fst (reactivateAll P l k)))
    /\ Forall (fun i => (i < snd (reactivateAll P l k))%nat)
         (child_nids (fst (reactivateAll P l k)))
    /\ (forall j, j ∈ child_nids (fst (reactivateAll P l k)) ->
                  j ∈ child_nids l \/ (k <= j)%nat).
Proof.
  induction l as [|x r IH]; intros k Hnd Hlt; simpl.
  - repeat split; [lia|constructor|constructor|]. intros j Hj. by left.
  - pose proof (reactivate_mono P x k) as Hm.
    pose proof (reactivate_nid P x k) as Hn.
    destruct (reactivate P x k) as [x' k1]. simpl in Hm, Hn.
    assert (Hnd' : NoDup (child_nids r)).
    { simpl in Hnd. destruct (node_nid x); [by apply NoDup_cons in Hnd as [_ ?]|done]. }
    assert (Hlt0 : Forall (fun i => (i < k)%nat) (child_nids r)).
    { simpl in Hlt. destruct (node_nid x); [by apply Forall_cons in Hlt as [_ ?]|done]. }
    assert (Hlt' : Forall (fun i => (i < k1)%nat) (child_nids r)).
    { eapply Forall_impl; [exact Hlt0|]. simpl. intros. lia. }
    destruct (IH k1 Hnd' Hlt') as (Hk & Hnd2 & Hlt2 & Hin).
    destruct (reactivateAll P r k1) as [r' k2]. simpl in *.
    destruct (node_nid x') as [j'|] eqn:Ej'.
    + assert (Hj' : (j' < k1)%nat /\ j' ∉ child_nids r).
      { destruct Hn as [Hn|[[i Hi] (j & Hj & Hr)]].
        - rewrite <- Hn in Hnd, Hlt.
          apply NoDup_cons in Hnd as [Hni _]. apply Forall_cons in Hlt as [Hl _].
          split; [lia|done].
        - injection Hj as <-. split; [lia|].
          intros Hc. rewrite Forall_forall in Hlt0. specialize (Hlt0 _ Hc). lia. }
      destruct Hj' as [Hj1 Hj2].
      split; [lia|]. split; [|split].
      * apply NoDup_cons. split; [|done].
        intros Hc. destruct (Hin _ Hc) as [?|?]; [done|lia].
      * apply Forall_cons. split; [lia|done].
      * intros j Hj. apply elem_of_cons in Hj as [->|Hj].
        -- destruct Hn as [Hn|[_ (j & Hj & Hr)]].
           ++ left. rewrite <- Hn. apply elem_of_cons. by left.
           ++ injection Hj as <-. right. lia.
        -- destruct (Hin _ Hj) as [?|?]; [|right; lia].
           left. destruct (node_nid x); [apply elem_of_cons; by right|done].
    + split; [lia|]. split; [done|]. split; [done|].
      intros j Hj. destruct (Hin _ Hj) as [?|?]; [|right; lia].
      left. destruct (node_nid x); [apply elem_of_cons; by right|done].
Qed.

Lemma importNode_Elem i tg a kids k :
  importNode (Elem i tg a kids) k
  = let '(kids', k') := importNodes kids (S k) in (Elem k tg a kids', k').
Proof.
  simpl.
  assert (E : forall l j,
    (fix import_kids (l : list node) (j : nat) : list node * nat :=
       match l with
       | [] => ([], j)
       | x :: r =>
           let '(x', j1) := importNode x j in
           let '(r', j2) := import_kids r j1 in
           (x' :: r', j2)
       end) l j = importNodes l j).
  { induction l as [|x r IH]; intros j; simpl; [done|].
    destruct (importNode x j) as [x' j1]. by rewrite IH. }
  by rewrite E.
Qed.

Lemma importNode_mono n : forall k, (k <= snd (importNode n k))%nat.
Proof.
  induction n as [d|i a t|i tg a kids IH] using node_induction; intros k.
  - done.
  - simpl. lia.
  - rewrite importNode_Elem.
    assert (Hk : forall j, (j <= snd (importNodes kids j))%nat).
    { clear -IH. induction IH as [|x r Hx Hr IHr]; intros j; simpl; [done|].
      specialize (Hx j). destruct (importNode x j) as [x' j1]. simpl in Hx.
      specialize (IHr j1). destruct (importNodes r j1) as [r' j2].
      simpl in *. lia. }
    specialize (Hk (S k)). destruct (importNodes kids (S k)). simpl in *. lia.
Qed.

(** A copy of an element is a new element with the attributes of the
    original. *)
Lemma importNode_element n k :
  is_element n = true ->
  node_nid (fst (importNode n k)) = Some k
  /\ (k < snd (importNode n k))%nat
  /\ node_id (fst (importNode n k)) = node_id n
  /\ is_preserved (fst (importNode n k)) = is_preserved n.
Proof.
  intros He. pose proof (importNode_mono n k) as Hm.
  destruct n as [d|i a t|i tg a kids]; [done| |].
  - simpl. repeat split. lia.
  - rewrite importNode_Elem in *.
    destruct (importNodes kids (S k)) as [kids' k'] eqn:E. simpl in *.
    repeat split.
    pose proof (importNode_mono (Elem i tg a kids) k) as H.
    rewrite importNode_Elem, E in H. simpl in H.
    assert (Hk : forall l j, (j <= snd (importNodes l j))%nat).
    { clear. induction l as [|x r IHr]; intros j; simpl; [done|].
      pose proof (importNode_mono x j) as Hx.
      destruct (importNode x j) as [x' j1]. simpl in Hx.
      specialize (IHr j1). destruct (importNodes r j1) as [r' j2].
      simpl in *. lia. }
    specialize (Hk kids (S k)). rewrite E in Hk. simpl in Hk. lia.
Qed.

(** *** The head merge *)

Lemma nid_in_child_nids l n i :
  n ∈ l -> node_nid n = Some i -> i ∈ child_nids l.
Proof.
  induction l as [|x r IH]; intros Hn Hi; [by apply elem_of_nil in Hn|].
  simpl. apply elem_of_cons in Hn as [<-|Hn].
  - rewrite Hi. apply elem_of_cons. by left.
  - destruct (node_nid x); [apply elem_of_cons; right|]; by apply IH.
Qed.

Lemma same_nid_same_node l n m i :
  NoDup (child_nids l) ->
  n ∈ l -> m ∈ l -> node_nid n = Some i -> node_nid m = Some i -> n = m.
Proof.
  induction l as [|x r IH]; intros Hnd Hn Hm Hi Hj; [by apply elem_of_nil in Hn|].
  simpl in Hnd.
  apply elem_of_cons in Hn as [->|Hn]; apply elem_of_cons in Hm as [->|Hm].
  - done.
  - rewrite Hi in Hnd. apply NoDup_cons in Hnd as [Hni _].
    destruct Hni. by eapply nid_in_child_nids.
  - rewrite Hj in Hnd. apply NoDup_cons in Hnd as [Hni _].
    destruct Hni. by eapply nid_in_child_nids.
  - apply IH; try done.
    destruct (node_nid x); [by apply NoDup_cons in Hnd as [_ ?]|done].
Qed.

Lemma existingById_from l :
  forall (m0 : gmap string nat) id i,
    foldl index_child m0 l !! id = Some i ->
    m0 !! id = Some i
    \/ exists n, n ∈ l /\ node_nid n = Some i /\ node_id n = id.
Proof.
  induction l as [|x r IH]; intros m0 id i H; simpl in H; [by left|].
  apply IH in H as [H|(n & Hn & Hi & Hid)].
  - unfold index_child in H.
    destruct (node_nid x) as [j|] eqn:Ej; [|by left].
    destruct (nonempty (node_id x)); [|by left].
    apply lookup_insert_Some in H as [[<- <-]|[_ H]]; [|by left].
    right. exists x. split; [apply elem_of_cons; by left|done].
  - right. exists n. split; [apply elem_of_cons; by right|done].
Qed.

Lemma merge_inv_start hd k :
  NoDup (child_nids hd) ->
  Forall (fun i => (i < k)%nat) (child_nids hd) ->
  merge_inv hd (hd, existingById hd, k).
Proof.
  intros Hnd Hlt. split; [done|split; [done|split; [|done]]].
  intros id i H. apply existingById_from in H as [H|(n & Hn & Hi & Hid)].
  - by rewrite lookup_empty in H.
  - split.
    + rewrite Forall_forall in Hlt. apply Hlt. by eapply nid_in_child_nids.
    + intros m Hm Hj. by rewrite <- (same_nid_same_node hd n m i).
Qed.

Lemma elem_of_replaceWith i new l m :
  m ∈ replaceWith i new l -> m ∈ l \/ m = new.
Proof.
  induction l as [|x r IH]; simpl; [by left|].
  destruct (bool_decide (node_nid x = Some i)); intros H.
  - apply elem_of_cons in H as [->|H]; [by right|].
    left. apply elem_of_cons. by right.
  - apply elem_of_cons in H as [->|H]; [left; apply elem_of_cons; by left|].
    destruct (IH H) as [?|?]; [left; apply elem_of_cons; by right|by right].
Qed.

Lemma child_nids_replaceWith i new l k j :
  node_nid new = Some k ->
  j ∈ child_nids (replaceWith i new l) -> j ∈ child_nids l \/ j = k.
Proof.
  intros Hk. induction l as [|x r IH]; simpl; [by left|].
  destruct (bool_decide (node_nid x = Some i)); simpl.
  - rewrite Hk. intros H. apply elem_of_cons in H as [->|H]; [by right|].
    left. destruct (node_nid x); [apply elem_of_cons; by right|done].
  - destruct (node_nid x) as [jx|]; [|exact IH].
    intros H. apply elem_of_cons in H as [->|H]; [left; apply elem_of_cons; by left|].
    destruct (IH H) as [?|?]; [left; apply elem_of_cons; by right|by right].
Qed.

Lemma NoDup_replaceWith i new l k :
  node_nid new = Some k ->
  k ∉ child_nids l ->
  NoDup (child_nids l) ->
  NoDup (child_nids (replaceWith i new l)).
Proof.
  intros Hk. induction l as [|x r IH]; simpl; [done|].
  destruct (bool_decide (node_nid x = Some i)); simpl.
  - rewrite Hk. intros Hni Hnd. apply NoDup_cons.
    destruct (node_nid x).
    + apply NoDup_cons in Hnd as [_ Hnd]. split; [|done].
      intros Hc. apply Hni. apply elem_of_cons. by right.
    + by split.
  - destruct (node_nid x) as [jx|]; [|exact IH].
    intros Hni Hnd. apply NoDup_cons in Hnd as [Hjx Hnd].
    apply NoDup_cons. split.
    + intros Hc. destruct (child_nids_replaceWith _ _ _ _ _ Hk Hc) as [?| ->]; [done|].
      apply Hni. apply elem_of_cons. by left.
    + apply IH; [|done]. intros Hc. apply Hni. apply elem_of_cons. by right.
Qed.

Lemma preserved_children_replaceWith i new l :
  is_preserved new = false ->
  (forall m, m ∈ l -> node_nid m = Some i -> is_preserved m = false) ->
  preserved_children (replaceWith i new l) = preserved_children l.
Proof.
  intros Hnew. unfold preserved_children.
  induction l as [|x r IH]; intros H; simpl; [done|].
  destruct (bool_decide_reflect (node_nid x = Some i)) as [Hx|Hx]; simpl.
  - rewrite Hnew, (H x); [done|apply elem_of_cons; by left|done].
  - assert (E : List.map shallow (List.filter is_preserved (replaceWith i new r))
                = List.map shallow (List.filter is_preserved r)).
    { apply IH. intros m Hm. apply H, elem_of_cons. by right. }
    destruct (is_preserved x); simpl; by rewrite E.
Qed.

Lemma preserved_children_snoc l new :
  is_preserved new = false ->
  preserved_children (l ++ [new]) = preserved_children l.
Proof.
  intros Hnew. unfold preserved_children.
  rewrite List.filter_app. simpl. by rewrite Hnew, app_nil_r.
Qed.

Lemma child_nids_snoc l new k :
  node_nid new = Some k -> child_nids (l ++ [new]) = child_nids l ++ [k].
Proof.
  intros Hk. induction l as [|x r IH]; simpl; [by rewrite Hk|].
  destruct (node_nid x); simpl; by rewrite IH.
Qed.

Lemma merge_child_inv hd0 st n :
  is_element n = true -> merge_inv hd0 st -> merge_inv hd0 (merge_child st n).
Proof.
  destruct st as [[hd idx] k]. intros He (Hnd & Hlt & Hidx & Hpres).
  unfold merge_child.
  destruct (nonempty (node_id n) && preserved (node_id n)) eqn:G; [done|].
  destruct (importNode_element n k He) as (Hnid & Hk & Hid & Hp).
  destruct (importNode n k) as [imported k'] eqn:E. cbn [fst snd] in *.
  assert (Hnew : is_preserved imported = false).
  { rewrite Hp. unfold is_preserved. by rewrite <- andb_assoc, G, andb_false_r. }
  assert (Hfresh : k ∉ child_nids hd).
  { intros Hc. rewrite Forall_forall in Hlt. specialize (Hlt _ Hc). lia. }
  destruct (if nonempty (node_id n) then idx !! node_id n else None)
    as [existing|] eqn:Ei.
  - destruct (nonempty (node_id n)) eqn:En; [|done].
    destruct (Hidx _ _ Ei) as [Hek Hem].
    split; [|split; [|split]].
    + by eapply NoDup_replaceWith.
    + apply Forall_forall. intros j Hj.
      destruct (child_nids_replaceWith _ _ _ _ _ Hnid Hj) as [Hj'| ->]; [|lia].
      rewrite Forall_forall in Hlt. specialize (Hlt _ Hj'). lia.
    + intros id i Hi. apply lookup_delete_Some in Hi as [Hne Hi].
      destruct (Hidx _ _ Hi) as [Hik Him]. split; [lia|].
      intros m Hm Hmi. apply elem_of_replaceWith in Hm as [Hm| ->].
      * by apply Him.
      * rewrite Hnid in Hmi. injection Hmi as <-. lia.
    + rewrite preserved_children_replaceWith; [done..|].
      intros m Hm Hmi. unfold is_preserved.
      rewrite (Hem m Hm Hmi), En. simpl in G. rewrite G. apply andb_false_r.
  - split; [|split; [|split]].
    + rewrite (child_nids_snoc _ _ _ Hnid). apply NoDup_app.
      split; [done|]. split; [|apply NoDup_singleton].
      intros x Hx Hc. apply list_elem_of_singleton in Hc as ->. done.
    + rewrite (child_nids_snoc _ _ _ Hnid). apply Forall_app. split.
      * eapply Forall_impl; [exact Hlt|]. simpl. intros. lia.
      * apply Forall_singleton. lia.
    + intros id i Hi. destruct (Hidx _ _ Hi) as [Hik Him]. split; [lia|].
      intros m Hm Hmi. apply elem_of_app in Hm as [Hm|Hm].
      * by apply Him.
      * apply list_elem_of_singleton in Hm as ->.
        rewrite Hnid in Hmi. injection Hmi as <-. lia.
    + by rewrite preserved_children_snoc.
Qed.

Lemma merge_fold_inv hd0 l :
  forall st,
    merge_inv hd0 st ->
    merge_inv hd0 (foldl merge_child st (List.filter is_element l)).
Proof.
  induction l as [|x r IH]; intros st Hst; simpl; [done|].
  destruct (is_element x) eqn:Ex; simpl; [|by apply IH].
  by apply IH, merge_child_inv.
Qed.

(** The head merge on distinct children older than [k]: the preserved
    children stay, and the children stay distinct and older than the
    next node. *)
Lemma merge_children_preserved newChildren hd k :
  NoDup (child_nids hd) ->
  Forall (fun i => (i < k)%nat) (child_nids hd) ->
  preserved_children (fst (merge_children newChildren hd k))
  = preserved_children hd
  /\ NoDup (child_nids (fst (merge_children newChildren hd k)))
  /\ Forall (fun i => (i < snd (merge_children newChildren hd k))%nat)
       (child_nids (fst (merge_children newChildren hd k))).
Proof.
  intros Hnd Hlt. unfold merge_children.
  pose proof (merge_fold_inv hd newChildren _ (merge_inv_start hd k Hnd Hlt)) as H.
  destruct (foldl merge_child (hd, existingById hd, k)
              (List.filter is_element newChildren)) as [[hd' idx'] k'].
  destruct H as (H1 & H2 & _ & H4). by simpl.
Qed.

Lemma length_replaceWith t new l : length (replaceWith t new l) = length l.
Proof.
  induction l as [|x r IH]; simpl; [done|].
  destruct (bool_decide (node_nid x = Some t)); simpl; by rewrite ?IH.
Qed.

Lemma lookup_replaceWith_ne t new l :
  forall i n, l !! i = Some n -> node_nid n <> Some t ->
              replaceWith t new l !! i = Some n.
Proof.
  induction l as [|x r IH]; intros i n Hi Hn; [done|]. simpl.
  destruct i as [|i]; simpl in Hi.
  - injection Hi as ->. by rewrite bool_decide_eq_false_2.
  - destruct (bool_decide (node_nid x = Some t)); simpl; [done|]. by apply IH.
Qed.

Lemma merge_child_additive hd0 cs st c :
  is_element c = true ->
  In (node_id c) (fetched_ids cs) ->
  merge_inv hd0 st ->
  additive_inv hd0 cs st ->
  additive_inv hd0 cs (merge_child st c).
Proof.
  destruct st as [[hd idx] k]. intros He Hc (_ & _ & Hidx & _) [Hlen Hpos].
  unfold merge_child.
  destruct (nonempty (node_id c) && preserved (node_id c)) eqn:G; [done|].
  destruct (importNode c k) as [imported k'].
  destruct (if nonempty (node_id c) then idx !! node_id c else None)
    as [existing|] eqn:Ei.
  - destruct (nonempty (node_id c)) eqn:En; [|done]. simpl in G.
    destruct (Hidx _ _ Ei) as [_ Hem].
    split; [by rewrite length_replaceWith|].
    intros i n Hi Hu. apply lookup_replaceWith_ne; [by apply Hpos|].
    intros Hn. specialize (Hpos i n Hi Hu).
    assert (Hid : node_id n = node_id c).
    { apply Hem; [|done]. by eapply list_elem_of_lookup_2. }
    destruct Hu as [Hu|[Hu|Hu]].
    + rewrite Hid in Hu. unfold nonempty in En. by rewrite Hu in En.
    + rewrite Hid, G in Hu. done.
    + apply Hu. by rewrite Hid.
  - split; [rewrite length_app; lia|].
    intros i n Hi Hu. apply lookup_app_l_Some. by apply Hpos.
Qed.

Lemma merge_fold_additive hd0 cs l :
  Forall (fun c => is_element c = true -> In (node_id c) (fetched_ids cs)) l ->
  forall st,
    merge_inv hd0 st ->
    additive_inv hd0 cs st ->
    additive_inv hd0 cs (foldl merge_child st (List.filter is_element l)).
Proof.
  induction 1 as [|x r Hx Hr IH]; intros st Hinv Hadd; simpl; [done|].
  destruct (is_element x) eqn:Ex; simpl; [|by apply IH].
  apply IH; [by apply merge_child_inv|].
  apply merge_child_additive; auto.
Qed.

(** The head merge on distinct children older than [k] takes no child
    away, and leaves whole and in place every child it has no reason to
    touch. *)
Lemma merge_children_additive children hd k :
  NoDup (child_nids hd) ->
  Forall (fun i => (i < k)%nat) (child_nids hd) ->
  (length hd <= length (fst (merge_children children hd k)))%nat
  /\ forall i n,
       hd !! i = Some n -> untouched children n ->
       fst (merge_children children hd k) !! i = Some n.
Proof.
  intros Hnd Hlt. unfold merge_children.
  assert (Hall : Forall (fun c => is_element c = true ->
                                  In (node_id c) (fetched_ids children)) children).
  { apply Forall_forall. intros c Hc He. unfold fetched_ids.
    apply in_map, filter_In. split; [by apply list_elem_of_In|done]. }
  pose proof (merge_fold_additive hd children children Hall _
                (merge_inv_start _ _ Hnd Hlt)) as H.
  destruct (foldl merge_child (hd, existingById hd, k)
              (List.filter is_element children)) as [[hd' idx] k'].
  simpl in *. apply H. by split.
Qed.

(** *** Any sequence of merges and reactivations *)

Lemma apply_op_preserved (P : Platform) (op : dom_op) (w : world) :
  wf_head w ->
  wf_head (snd (apply_op P op w))
  /\ preserved_children (head (doc (snd (apply_op P op w))))
     = preserved_children (head (doc w))
  /\ preserved_below (body (doc (snd (apply_op P op w))))
     = preserved_below (body (doc w)).
Proof.
  intros [Hnd Hlt]. destruct op as [[children|]|[|]]; simpl.
  - destruct (merge_children_preserved children _ _ Hnd Hlt) as (H1 & H2 & H3).
    destruct (merge_children children (head (doc w)) (next_nid w)) as [hd k].
    by simpl in *.
  - done.
  - destruct (reactivateAll_nids P _ _ Hnd Hlt) as (_ & H2 & H3 & _).
    pose proof (reactivateAll_preserved_children P (head (doc w)) (next_nid w)) as H1.
    destruct (reactivateAll P (head (doc w)) (next_nid w)) as [h k].
    by simpl in *.
  - pose proof (reactivateAll_preserved_below P (body (doc w)) (next_nid w)) as H1.
    assert (Hk : (next_nid w <= snd (reactivateAll P (body (doc w)) (next_nid w)))%nat).
    { clear. generalize (next_nid w). induction (body (doc w)) as [|x r IH];
        intros k; simpl; [done|].
      pose proof (reactivate_mono P x k) as Hx.
      destruct (reactivate P x k) as [x' k1]. specialize (IH k1).
      destruct (reactivateAll P r k1) as [r' k2]. simpl in *. lia. }
    destruct (reactivateAll P (body (doc w)) (next_nid w)) as [b k].
    simpl in *. split; [|done]. split; [done|].
    eapply Forall_impl; [exact Hlt|]. simpl. intros. lia.
Qed.

Lemma apply_ops_preserved (P : Platform) (ops : list dom_op) (w : world) :
  wf_head w ->
  wf_head (apply_ops P ops w)
  /\ preserved_children (head (doc (apply_ops P ops w)))
     = preserved_children (head (doc w))
  /\ preserved_below (body (doc (apply_ops P ops w)))
     = preserved_below (body (doc w)).
Proof.
  revert w. induction ops as [|op ops IH]; intros w Hw; simpl; [done|].
  destruct (apply_op_preserved P op w Hw) as (Hw' & H1 & H2).
  destruct (IH _ Hw') as (Hw'' & H3 & H4). by rewrite H3, H4.
Qed.

(** C4, as stated, fails: the head merge replaces a head child whose id
    a fetched element carries, and a preserved element nested below that
    child goes with it.  Here the live head holds an element of id
    fallback around the config carrier; merging a fetched head with an
    element of id fallback leaves no preserved element in the head. *)
Lemma nested_preserved_element_removed :
  preserved_below (head (doc (start example_page nested_document 2)))
  = [Elem 1 "meta" [("id", "__web_dev_server_config")] []]
  /\ preserved_below
       (head (doc (snd (mergeHead (Some nested_head)
                          (start example_page nested_document 2)))))
     = [].
Proof. split; reflexivity. Qed.

(** C4, amended: start from a page whose head children are distinct
    objects, older than the next node to be created, and run head merges
    (of any fetched head, or of none) and script reactivations (of the
    head or of the body) in any order and number.  The head children are
    still distinct objects afterwards, and the preserved elements among
    the children of the head, and the preserved elements anywhere in the
    body, are the very same elements, in the same order: none was
    removed, none was replaced by a copy, none was added.  Below the
    children of the head, a reactivation keeps every preserved element
    of the root it works on, at any depth; and a merge keeps whole and in
    place, with all that is below it, every head child that has no id, a
    preserved id, or an id no fetched element carries. *)
Theorem preserved_elements_kept (P : Platform) (ops : list dom_op) (w : world) :
  wf_head w ->
  wf_head (apply_ops P ops w)
  /\ preserved_children (head (doc (apply_ops P ops w)))
     = preserved_children (head (doc w))
  /\ preserved_below (body (doc (apply_ops P ops w)))
     = preserved_below (body (doc w))
  /\ (forall r,
        preserved_below (root_nodes r (doc (snd (reactivateScripts P r w))))
        = preserved_below (root_nodes r (doc w)))
  /\ (forall children i n,
        head (doc w) !! i = Some n ->
        untouched children n ->
        head (doc (snd (mergeHead (Some children) w))) !! i = Some n).
Proof.
  intros Hw.
  destruct (apply_ops_preserved P ops w Hw) as (H1 & H2 & H3).
  split; [done|]. split; [done|]. split; [done|]. split.
  - intros [|]; simpl; unfold modify; simpl.
    + pose proof (reactivateAll_preserved_below P (head (doc w)) (next_nid w)) as H.
      by destruct (reactivateAll P (head (doc w)) (next_nid w)).
    + pose proof (reactivateAll_preserved_below P (body (doc w)) (next_nid w)) as H.
      by destruct (reactivateAll P (body (doc w)) (next_nid w)).
  - intros children i n Hi Hu. destruct Hw as [Hnd Hlt].
    destruct (merge_children_additive children _ _ Hnd Hlt) as [_ H].
    specialize (H i n Hi Hu). simpl. unfold modify. simpl.
    by destruct (merge_children children (head (doc w)) (next_nid w)).
Qed.

Lemma preserved_elements_kept_witness :
  preserved_children
    (head (doc (apply_ops example_page
                  [MergeHead (Some fetched_head); ReactivateScripts DocumentBody;
                   ReactivateScripts DocumentHead; MergeHead None;
                   MergeHead (Some fetched_head)]
                  (start example_page live_document 7))))
  = [Elem 0 "meta" [("id", "__web_dev_server_config"); ("content", "old")] [];
     Script 1 [("id", "__web_dev_server_client"); ("src", "/_live/script.js")] ""]
  /\ preserved_below
       (body (doc (apply_ops example_page
                     [MergeHead (Some fetched_head); ReactivateScripts DocumentBody;
                      ReactivateScripts DocumentHead; MergeHead None;
                      MergeHead (Some fetched_head)]
                     (start example_page live_document 7))))
     = [Script 5 [("id", "__web_dev_server_client")] "boot()"].
Proof.
  assert (Hw : wf_head (start example_page live_document 7)).
  { split; apply (bool_decide_unpack _); vm_compute; exact I. }
  destruct (preserved_elements_kept example_page
              [MergeHead (Some fetched_head); ReactivateScripts DocumentBody;
               ReactivateScripts DocumentHead; MergeHead None;
               MergeHead (Some fetched_head)]
              (start example_page live_document 7) Hw) as (_ & H1 & H2 & _).
  split; [exact H1|exact H2].
Defined.

(** * Further properties *)

(** ** What the dispatcher leaves alone *)

Lemma keeps_ret {A} (a : A) : keeps_conn (ret a).
Proof. by intros w. Qed.

Lemma keeps_throw {A} : keeps_conn (@throw A).
Proof. by intros w. Qed.

Lemma keeps_lift {A} (o : option A) : keeps_conn (lift o).
Proof. by intros w. Qed.

Lemma keeps_bind {A B} (m : M A) (f : A -> M B) :
  keeps_conn m -> (forall a, keeps_conn (f a)) -> keeps_conn (bind m f).
Proof.
  intros Hm Hf w. unfold bind. specialize (Hm w).
  destruct (m w) as [[a|] w1]; simpl in *; [|done].
  by rewrite (Hf a w1).
Qed.

Lemma keeps_try_catch {A} (m h : M A) :
  keeps_conn m -> keeps_conn h -> keeps_conn (try_catch m h).
Proof.
  intros Hm Hh w. unfold try_catch. specialize (Hm w).
  destruct (m w) as [[a|] w1]; simpl in *; [done|].
  by rewrite (Hh w1).
Qed.

Lemma keeps_detach (m : M unit) : keeps_conn m -> keeps_conn (detach m).
Proof. intros Hm w. apply Hm. Qed.

Lemma keeps_modify (f : world -> world) :
  (forall w, conn (f w) = conn w) -> keeps_conn (modify f).
Proof. intros Hf w. apply Hf. Qed.

(** Splits a computation along its binds, handlers and tests. *)
Ltac frame_modify :=
  apply keeps_modify; intros ?;
  repeat match goal with
         | |- context [let '(_, _) := ?x in _] => destruct x
         | |- context [match ?r with DocumentHead => _ | DocumentBody => _ end] =>
             destruct r
         end;
  reflexivity.

Ltac frame_step :=
  lazymatch goal with
  | |- keeps_conn (ret _) => apply keeps_ret
  | |- keeps_conn throw => apply keeps_throw
  | |- keeps_conn (lift _) => apply keeps_lift
  | |- keeps_conn (detach _) => apply keeps_detach
  | |- keeps_conn (try_catch _ _) => apply keeps_try_catch
  | |- keeps_conn (bind _ _) => apply keeps_bind; [|intros ?]
  | |- keeps_conn (modify _) => frame_modify
  | |- keeps_conn (if ?b then _ else _) => destruct b
  | |- keeps_conn (match ?o with Some _ => _ | None => _ end) => destruct o
  end.

Ltac frame := repeat frame_step.

Lemma keeps_hardReload P path : keeps_conn (hardReload P path).
Proof.
  unfold hardReload, cacheBustUrl. frame. by intros w.
Qed.

Lemma keeps_refresh_stylesheets P tp : keeps_conn (refresh_stylesheets P tp).
Proof.
  intros w. unfold refresh_stylesheets.
  destruct (css_nodes P tp (head (doc w)) _) as [h s1].
  destruct (css_nodes P tp (body (doc w)) s1) as [b s2].
  by destruct (css_thrown s2).
Qed.

Lemma keeps_applyCssDiff P path : keeps_conn (applyCssDiff P path).
Proof.
  unfold applyCssDiff. frame;
    first [apply keeps_hardReload | apply keeps_refresh_stylesheets].
Qed.

Lemma keeps_applyHtmlDiff P path : keeps_conn (applyHtmlDiff P path).
Proof.
  unfold applyHtmlDiff, updateTitle, mergeHead, replaceBody, reactivateScripts,
    error, cacheBustUrl.
  frame; first [apply keeps_hardReload | by intros w].
Qed.

Lemma keeps_handleMessage P message : keeps_conn (handleMessage P message).
Proof.
  unfold handleMessage, log. frame;
    first [apply keeps_hardReload | apply keeps_applyCssDiff
          | apply keeps_applyHtmlDiff].
Qed.

Lemma on_event_conn P e w :
  conn (snd (on_event P e w))
  = match e with
    | SocketOpen => (500, timers w, sockets w)
    | SocketClose =>
        (Z.min (retryDelay w * 2) 8000,
         timers w ++ [Z.min (retryDelay w * 2) 8000], sockets w)
    | TimerFired =>
        (retryDelay w, timers w,
         sockets w ++ if WebSocket_accepts P (ws_target P)
                      then [ws_target P] else [])
    | SocketMessage _ | SocketError => conn w
    end.
Proof.
  destruct e; try reflexivity.
  - simpl. apply keeps_try_catch.
    + destruct (JSON_parse P data); [apply keeps_handleMessage|apply keeps_throw].
    + unfold error. frame.
  - change (snd (on_event P TimerFired w)) with (snd (connect P w)).
    rewrite connect_world. unfold conn.
    destruct (WebSocket_accepts P (ws_target P)); simpl; by rewrite ?app_nil_r.
Qed.

Lemma on_event_parts P e w :
  retryDelay (snd (on_event P e w))
  = match e with
    | SocketOpen => 500
    | SocketClose => Z.min (retryDelay w * 2) 8000
    | _ => retryDelay w
    end
  /\ timers (snd (on_event P e w))
     = timers w ++ match e with
                   | SocketClose => [Z.min (retryDelay w * 2) 8000]
                   | _ => []
                   end
  /\ sockets (snd (on_event P e w))
     = sockets w ++ match e with
                    | TimerFired =>
                        if WebSocket_accepts P (ws_target P)
                        then [ws_target P] else []
                    | _ => []
                    end.
Proof.
  pose proof (on_event_conn P e w) as Hc.
  pose proof (f_equal (fun c => fst (fst c)) Hc) as Hr.
  pose proof (f_equal (fun c => snd (fst c)) Hc) as Ht.
  pose proof (f_equal snd Hc) as Hs.
  cbn [conn fst snd] in Hr, Ht, Hs. rewrite Hr, Ht, Hs.
  destruct e; simpl; by rewrite ?app_nil_r.
Qed.

Lemma on_message_returns P data w :
  fst (on_event P (SocketMessage data) w) = Some tt.
Proof.
  simpl. unfold try_catch.
  destruct (match JSON_parse P data with
            | Some message => handleMessage P message
            | None => throw
            end w) as [[[]|] w1]; reflexivity.
Qed.

(** X1: whatever a socket message holds, its listener returns (nothing
    it throws escapes), and the retry delay, the timers armed and the
    sockets opened are afterwards what they were; a payload that
    [JSON.parse] rejects only adds one line to the console. *)
Theorem message_listener_safe (P : Platform) (data : string) (w : world) :
  fst (on_event P (SocketMessage data) w) = Some tt
  /\ conn (snd (on_event P (SocketMessage data) w)) = conn w
  /\ (JSON_parse P data = None ->
      snd (on_event P (SocketMessage data) w)
      = with_console "received malformed message" w).
Proof.
  split; [apply on_message_returns|]. split; [by rewrite on_event_conn|].
  intros H. simpl. unfold try_catch. by rewrite H.
Qed.

Lemma message_listener_safe_witness :
  snd (on_event example_page (SocketMessage "{oops")
         (start example_page empty_document 0))
  = with_console "received malformed message"
      (start example_page empty_document 0).
Proof.
  apply (message_listener_safe example_page "{oops"
           (start example_page empty_document 0)).
  reflexivity.
Defined.

(** ** The connection manager, over any run of events *)

Lemma run_app P es1 es2 w : run P (es1 ++ es2) w = run P es2 (run P es1 w).
Proof. revert w. induction es1 as [|e es1 IH]; intros w; simpl; [done|]. apply IH. Qed.

(** X2: from a retry delay between 500 and 8000, no run of events
    (opens, closes, errors, timers, messages of any content) takes the
    retry delay out of that range; the run arms one timer per close,
    each with a delay between 1000 and 8000. *)
Theorem retryDelay_bounded (P : Platform) (es : list event) (w : world) :
  500 <= retryDelay w <= 8000 ->
  500 <= retryDelay (run P es w) <= 8000
  /\ exists ds,
       timers (run P es w) = timers w ++ ds
       /\ length ds = closes es
       /\ Forall (fun d => 1000 <= d <= 8000) ds.
Proof.
  revert w. induction es as [|e es IH]; intros w Hw; simpl.
  - split; [done|]. exists []. by rewrite app_nil_r.
  - destruct (on_event_parts P e w) as (Hr1 & Ht1 & _).
    set (w1 := snd (on_event P e w)) in *.
    assert (Hw1 : 500 <= retryDelay w1 <= 8000).
    { rewrite Hr1. destruct e; simpl; lia. }
    destruct (IH w1 Hw1) as (Hr & ds & Ht & Hl & Hb).
    split; [done|]. rewrite Ht, Ht1.
    destruct e; simpl; try (exists ds; by rewrite ?app_nil_r).
    exists (Z.min (retryDelay w * 2) 8000 :: ds).
    rewrite <- app_assoc. split; [done|].
    split; [unfold closes in *; simpl; by rewrite Hl|].
    constructor; [lia|done].
Qed.

Lemma retryDelay_bounded_witness :
  500 <= retryDelay
           (run example_page
              [SocketClose; TimerFired; SocketOpen; SocketMessage "{oops";
               SocketError; SocketClose; TimerFired; SocketClose]
              (start example_page empty_document 0)) <= 8000.
Proof.
  apply (retryDelay_bounded example_page
           [SocketClose; TimerFired; SocketOpen; SocketMessage "{oops";
            SocketError; SocketClose; TimerFired; SocketClose]
           (start example_page empty_document 0)).
  simpl. lia.
Defined.

(** X3: when [new WebSocket] accepts the address, the script opens one
    socket when it starts and one more each time a reconnect timer
    fires, never at another event, and always to the same address: wss
    for a page served over https and ws otherwise, at the host of the
    page, at the configured path.  When [new WebSocket] rejects the
    address, [connect] throws each time and no socket is ever opened. *)
Theorem one_socket_per_timer (P : Platform) (es : list event) (w : world) :
  sockets (run P es w)
  = sockets w ++ repeat (ws_target P)
                   (if WebSocket_accepts P (ws_target P) then timer_fires es
                    else 0)
  /\ (forall d k,
        sockets (start P d k)
        = if WebSocket_accepts P (ws_target P) then [ws_target P] else [])
  /\ fst (connect P w)
     = if WebSocket_accepts P (ws_target P) then Some tt else None.
Proof.
  split; [|split].
  - revert w. induction es as [|e es IH]; intros w; simpl.
    + destruct (WebSocket_accepts P (ws_target P)); simpl; by rewrite app_nil_r.
    + rewrite IH. destruct (on_event_parts P e w) as (_ & _ & ->).
      unfold timer_fires.
      destruct e; simpl; rewrite ?app_nil_r; try done.
      destruct (WebSocket_accepts P (ws_target P)); simpl;
        by rewrite <- ?app_assoc, ?app_nil_r.
  - intros d k. unfold start. rewrite connect_world.
    by destruct (WebSocket_accepts P (ws_target P)).
  - unfold connect, ws_target. by destruct (WebSocket_accepts P _).
Qed.

(** X4: without a config object in the global slot (the slot is
    undefined, null, or holds anything that is not an object) the socket
    path is /_live/ws and patch mode is off. *)
Theorem config_defaults (P : Platform) :
  (forall m, window_config P <> VObj m) ->
  wsPath P = "/_live/ws" /\ diffMode P = false.
Proof.
  intros H. unfold wsPath, diffMode, config.
  destruct (window_config P) as [| |b|n|s|l|m]; try done;
    try (by destruct (truthy _)).
  by destruct (H m).
Qed.

Lemma config_defaults_witness :
  wsPath (Ref.platform "/" (VNum 1) (fun _ => None)) = "/_live/ws"
  /\ diffMode (Ref.platform "/" (VNum 1) (fun _ => None)) = false.
Proof.
  apply (config_defaults (Ref.platform "/" (VNum 1) (fun _ => None))).
  intros m H. discriminate H.
Defined.

(** ** The path normaliser and the path comparison *)

(** X5: whatever path it is given, when the normaliser returns it returns
    a path that starts with a slash and that ends with a slash only if
    it is the root. *)
Theorem normalizeHtmlPath_shape (P : Platform) (path : value) (n : string) :
  normalizeHtmlPath P path = Some n ->
  Str.startsWith n "/" = true
  /\ n <> ""
  /\ (n = "/" \/ Str.endsWith n "/" = false).
Proof.
  unfold normalizeHtmlPath. destruct (new_URL P (ToString path)) as [u|]; [|done].
  intros [= <-].
  destruct (normalizePathname_shape (pathname u)) as [Hs He].
  split; [done|]. split; [by eapply startsWith_nonempty|].
  apply andb_false_iff in He as [He|He]; [|by right].
  left. apply Nat.ltb_ge in He.
  destruct (normalizePathname (pathname u)) as [|c [|c' s]];
    [done| |simpl in He; lia].
  unfold Str.startsWith in Hs. simpl in Hs. rewrite andb_true_r in Hs.
  apply Ascii.eqb_eq in Hs. by subst.
Qed.

Lemma normalizeHtmlPath_shape_witness :
  Str.startsWith "/docs" "/" = true
  /\ "/docs" <> ""
  /\ ("/docs" = "/" \/ Str.endsWith "/docs" "/" = false).
Proof.
  apply (normalizeHtmlPath_shape example_page (VStr "docs/index.html")).
  reflexivity.
Defined.

Lemma normalizePathname_variants (s x : string) :
  is_normal s = true ->
  In x [s; s +:+ "/"; s +:+ "/index.html"; s +:+ "/index.htm"] ->
  normalizePathname x = s.
Proof.
  intros Hs Hx. destruct (normalizePathname_index s Hs) as [E1 E2].
  simpl in Hx. destruct Hx as [<-|[<-|[<-|[<-|[]]]]].
  - by apply normalizePathname_normal.
  - by apply normalizePathname_slash.
  - exact E1.
  - exact E2.
Qed.

(** X6: for a normal path [s], the paths [s], [s] with a slash,
    [s]/index.html and [s]/index.htm all match one another: two of them
    that the URL parser hands over as they are denote the same page. *)
Theorem pathsMatch_variants (P : Platform) (s x y : string) :
  is_normal s = true ->
  In x [s; s +:+ "/"; s +:+ "/index.html"; s +:+ "/index.htm"] ->
  In y [s; s +:+ "/"; s +:+ "/index.html"; s +:+ "/index.htm"] ->
  pathname_of P x = Some x ->
  pathname_of P y = Some y ->
  pathsMatch P (VStr x) (VStr y) = Some true.
Proof.
  intros Hs Hx Hy Ux Uy. unfold pathsMatch, normalizeHtmlPath, pathname_of in *.
  simpl. destruct (new_URL P x) as [ux|]; [|done].
  destruct (new_URL P y) as [uy|]; [|done].
  injection Ux as ->. injection Uy as ->.
  rewrite !(normalizePathname_variants s) by done.
  by rewrite String.eqb_refl.
Qed.

Lemma pathsMatch_variants_witness :
  pathsMatch example_page (VStr "/about/") (VStr "/about/index.html") = Some true.
Proof.
  apply (pathsMatch_variants example_page "/about" "/about/" "/about/index.html");
    [reflexivity|simpl; tauto|simpl; tauto|reflexivity|reflexivity].
Defined.

(** X7: the comparison of paths does not depend on the order of its two
    arguments, holds between a path that parses and itself, and carries
    over from a first and a second path and the second and a third to
    the first and the third. *)
Theorem pathsMatch_equivalence (P : Platform) :
  (forall a b, pathsMatch P a b = pathsMatch P b a)
  /\ (forall a u, new_URL P (ToString a) = Some u -> pathsMatch P a a = Some true)
  /\ (forall a b c, pathsMatch P a b = Some true -> pathsMatch P b c = Some true ->
                   pathsMatch P a c = Some true).
Proof.
  unfold pathsMatch, normalizeHtmlPath. split; [|split].
  - intros a b.
    destruct (new_URL P (ToString a)), (new_URL P (ToString b)); try done.
    by rewrite String.eqb_sym.
  - intros a u ->. by rewrite String.eqb_refl.
  - intros a b c.
    destruct (new_URL P (ToString a)), (new_URL P (ToString b)),
      (new_URL P (ToString c)); try done.
    intros [= Hab] [= Hbc]. apply String.eqb_eq in Hab, Hbc.
    by rewrite Hab, Hbc, String.eqb_refl.
Qed.

Lemma pathsMatch_equivalence_witness :
  pathsMatch example_page (VStr "/a/index.html") (VStr "/a") = Some true.
Proof.
  refine (proj2 (proj2 (pathsMatch_equivalence example_page))
            (VStr "/a/index.html") (VStr "/a/") (VStr "/a") _ _);
    reflexivity.
Defined.

(** ** Messages the dispatcher drops, skips or answers with a reload *)

(** X8: a message that is falsy, or whose type is missing or not a
    string, or whose type is a string other than reload and diff, is
    dropped: the dispatcher returns and nothing on the page changed. *)
Theorem handleMessage_ignored (P : Platform) (message : value) (w : world) :
  truthy message = false
  \/ is_string (get_prop message "type") = false
  \/ (exists t, get_prop message "type" = VStr t /\ t <> "reload" /\ t <> "diff") ->
  handleMessage P message w = (Some tt, w).
Proof.
  unfold handleMessage. intros [H|[H|(t & Ht & H1 & H2)]].
  - by rewrite H.
  - by rewrite H, orb_true_r.
  - rewrite (get_prop_string_truthy _ _ _ Ht), Ht. simpl.
    destruct (String.eqb_spec t "reload"); [done|].
    destruct (String.eqb_spec t "diff"); done.
Qed.

Lemma handleMessage_ignored_witness :
  handleMessage example_page (VObj [("type", VNum 7); ("path", VStr "/")])
    (start example_page empty_document 0)
  = (Some tt, start example_page empty_document 0)
  /\ handleMessage example_page (VObj [("type", VStr "ping")])
       (start example_page empty_document 0)
     = (Some tt, start example_page empty_document 0).
Proof.
  split.
  - apply (handleMessage_ignored example_page). right. left. reflexivity.
  - apply (handleMessage_ignored example_page). right. right.
    exists "ping". split; [reflexivity|]. split; discriminate.
Defined.

(** X9: with patch mode on, an html diff whose path normalises to
    another path than the current one changes nothing of the document
    and starts no reload: the dispatcher only logs that it skips it. *)
Theorem html_diff_for_other_page (P : Platform) (message : value)
    (w : world) (n c : string) :
  get_prop message "type" = VStr "diff" ->
  get_prop message "resource" = VStr "html" ->
  diffMode P = true ->
  normalizeHtmlPath P (get_prop message "path") = Some n ->
  normalizeHtmlPath P (current_path P) = Some c ->
  n <> c ->
  handleMessage P message w
  = (Some tt, with_console "skipping HTML diff for non-matching path" w).
Proof.
  intros Ht Hr Hd Hn Hc Hne. unfold handleMessage.
  rewrite (get_prop_string_truthy _ _ _ Ht), Ht, Hr, Hd. simpl.
  unfold bind, lift, pathsMatch. rewrite Hn, Hc.
  by destruct (String.eqb_spec n c).
Qed.

Lemma html_diff_for_other_page_witness :
  handleMessage example_page
    (VObj [("type", VStr "diff"); ("resource", VStr "html");
           ("path", VStr "/about/index.html")])
    (start example_page styled_document 5)
  = (Some tt,
     with_console "skipping HTML diff for non-matching path"
       (start example_page styled_document 5)).
Proof.
  apply (html_diff_for_other_page example_page _ _ "/about" "/");
    (reflexivity || discriminate).
Defined.

(** X10: with patch mode on, a diff whose resource is neither the string
    html nor the string css, and a css diff whose path is missing or
    otherwise falsy, are answered with a full reload of the current
    path: the location is replaced by that path with a new _v. *)
Theorem diff_falls_back_to_reload (P : Platform) (message : value)
    (u : URL) (w : world) :
  get_prop message "type" = VStr "diff" ->
  diffMode P = true ->
  (equals (get_prop message "resource") "html" = false
   /\ equals (get_prop message "resource") "css" = false)
  \/ (equals (get_prop message "resource") "css" = true
      /\ truthy (get_prop message "path") = false) ->
  new_URL P (location_pathname P) = Some u ->
  handleMessage P message w = (Some tt, reloaded P u w).
Proof.
  intros Ht Hd Hcase Hu.
  destruct (diff_fallbacks P message w Ht Hd) as (H1 & H2 & _).
  rewrite <- (hardReload_navigates P u w Hu).
  destruct Hcase as [[Ha Hb]|[Ha Hb]]; [by apply H1|by apply H2].
Qed.

Lemma diff_falls_back_to_reload_witness :
  handleMessage example_page
    (VObj [("type", VStr "diff"); ("resource", VStr "js"); ("path", VStr "/app.js")])
    (start example_page empty_document 0)
  = (Some tt,
     with_navigation "http://localhost:3000/?_v=1700000000000"
       (with_clock 1 (start example_page empty_document 0)))
  /\ handleMessage example_page
       (VObj [("type", VStr "diff"); ("resource", VStr "css"); ("path", VStr "")])
       (start example_page empty_document 0)
     = (Some tt,
        with_navigation "http://localhost:3000/?_v=1700000000000"
          (with_clock 1 (start example_page empty_document 0))).
Proof.
  split.
  - apply (diff_falls_back_to_reload example_page _
             (mkURL "http:" "localhost:3000" "/" [] ""));
      [reflexivity|reflexivity|left; split; reflexivity|reflexivity].
  - apply (diff_falls_back_to_reload example_page _
             (mkURL "http:" "localhost:3000" "/" [] ""));
      [reflexivity|reflexivity|right; split; reflexivity|reflexivity].
Defined.

(** ** Copies and reactivated scripts *)

Lemma seq_split (k k1 k2 : nat) :
  (k <= k1)%nat -> (k1 <= k2)%nat ->
  seq k (k1 - k) ++ seq k1 (k2 - k1) = seq k (k2 - k).
Proof.
  intros H1 H2. replace (k2 - k)%nat with ((k1 - k) + (k2 - k1))%nat by lia.
  rewrite seq_app. by replace (k + (k1 - k))%nat with k1 by lia.
Qed.

Lemma importNodes_copy_from l :
  Forall (fun n => forall k,
            skeleton (fst (importNode n k)) = skeleton n
            /\ (k <= snd (importNode n k))%nat
            /\ nids_of (fst (importNode n k)) = seq k (snd (importNode n k) - k)) l ->
  forall k,
    List.map skeleton (fst (importNodes l k)) = List.map skeleton l
    /\ (k <= snd (importNodes l k))%nat
    /\ flat_map nids_of (fst (importNodes l k)) = seq k (snd (importNodes l k) - k).
Proof.
  induction 1 as [|x r Hx Hr IH]; intros k; simpl.
  - by rewrite Nat.sub_diag.
  - destruct (Hx k) as (S1 & M1 & N1).
    destruct (importNode x k) as [x' k1]. simpl in *.
    destruct (IH k1) as (S2 & M2 & N2).
    destruct (importNodes r k1) as [r' k2]. simpl in *.
    split; [by rewrite S1, S2|]. split; [lia|].
    rewrite N1, N2. by apply seq_split.
Qed.

Lemma importNode_copy n :
  forall k,
    skeleton (fst (importNode n k)) = skeleton n
    /\ (k <= snd (importNode n k))%nat
    /\ nids_of (fst (importNode n k)) = seq k (snd (importNode n k) - k).
Proof.
  induction n as [d|i a t|i tg a kids IH] using node_induction; intros k.
  - simpl. by rewrite Nat.sub_diag.
  - simpl. split; [done|]. split; [lia|].
    by replace (S k - k)%nat with 1%nat by lia.
  - rewrite importNode_Elem.
    destruct (importNodes_copy_from kids IH (S k)) as (S1 & M1 & N1).
    destruct (importNodes kids (S k)) as [kids' k']. simpl in *.
    split; [by rewrite S1|]. split; [lia|].
    rewrite N1. replace (k' - k)%nat with (S (k' - S k)) by lia. done.
Qed.

Lemma importNodes_copy l k :
  List.map skeleton (fst (importNodes l k)) = List.map skeleton l
  /\ (k <= snd (importNodes l k))%nat
  /\ flat_map nids_of (fst (importNodes l k)) = seq k (snd (importNodes l k) - k).
Proof.
  apply importNodes_copy_from, Forall_forall. intros n _. apply importNode_copy.
Qed.

(** X11: given a body, [replaceBody] returns, and the live body is then
    a copy of the children of that body: the same tags, attributes, text
    and shape, made of new elements only, whose identities are the next
    ones in document order.  The head and the location are as they
    were. *)
Theorem replaceBody_copies (P : Platform) (childNodes : list node) (w : world) :
  fst (replaceBody P (Some childNodes) w) = Some tt
  /\ List.map skeleton (body (doc (snd (replaceBody P (Some childNodes) w))))
     = List.map skeleton childNodes
  /\ flat_map nids_of (body (doc (snd (replaceBody P (Some childNodes) w))))
     = seq (next_nid w)
           (next_nid (snd (replaceBody P (Some childNodes) w)) - next_nid w)
  /\ head (doc (snd (replaceBody P (Some childNodes) w))) = head (doc w)
  /\ navigations (snd (replaceBody P (Some childNodes) w)) = navigations w.
Proof.
  simpl. unfold modify. simpl.
  destruct (importNodes_copy childNodes (next_nid w)) as (S1 & _ & N1).
  destruct (importNodes childNodes (next_nid w)) as [nodes k]. by simpl in *.
Qed.





(** On the reference page a script with an empty src attribute has the
    URL of the page as its [src], so its text is not carried over. *)
Lemma reactivate_empty_src :
  reactivate example_page (Script 3 [("src", "")] "boot()") 7
  = (Script 7 [("src", "")] "", 8%nat).
Proof. reflexivity. Qed.

(** ** The head merge only adds and replaces *)

(** X13: merging a fetched head into a live head whose children are
    distinct objects never takes a child away: the list of children does
    not become shorter, and every child without an id, with a preserved
    id, or with an id that no fetched element carries is afterwards the
    same node at the same place.  The body is as it was. *)
Theorem mergeHead_is_additive (children : list node) (w : world) :
  wf_head w ->
  (length (head (doc w))
   <= length (head (doc (snd (mergeHead (Some children) w)))))%nat
  /\ (forall i n,
        head (doc w) !! i = Some n ->
        untouched children n ->
        head (doc (snd (mergeHead (Some children) w))) !! i = Some n)
  /\ body (doc (snd (mergeHead (Some children) w))) = body (doc w).
Proof.
  intros [Hnd Hlt]. simpl. unfold modify. simpl.
  destruct (merge_children_additive children _ _ Hnd Hlt) as [H1 H2].
  destruct (merge_children children (head (doc w)) (next_nid w)) as [hd k].
  by simpl in *.
Qed.

Lemma mergeHead_is_additive_witness :
  head (doc (snd (mergeHead (Some fetched_head)
                    (start example_page live_document 7)))) !! 4%nat
  = Some (Script 3 [] "init()").
Proof.
  refine (proj1 (proj2 (mergeHead_is_additive fetched_head
                          (start example_page live_document 7) _))
                4%nat (Script 3 [] "init()") _ _).
  - split; apply (bool_decide_unpack _); vm_compute; exact I.
  - reflexivity.
  - left. reflexivity.
Defined.

Lemma merge_fold_without_ids l :
  Forall (fun c => node_id c = "") l ->
  forall hd idx k,
    foldl merge_child (hd, idx, k) l
    = (hd ++ fst (importNodes l k), idx, snd (importNodes l k)).
Proof.
  induction 1 as [|c r Hc Hr IH]; intros hd idx k; simpl.
  - by rewrite app_nil_r.
  - rewrite Hc. simpl. destruct (importNode c k) as [imported k1].
    rewrite IH. destruct (importNodes r k1) as [r' k2]. simpl.
    by rewrite <- app_assoc.
Qed.

(** X14: when no element of the fetched head has an id, the merge
    replaces nothing: the live head keeps all its children, in place,
    and gets at its end one copy of each fetched element, in their
    order. *)
Theorem mergeHead_appends_without_ids (children : list node) (w : world) :
  Forall (fun c => node_id c = "") children ->
  exists copies,
    head (doc (snd (mergeHead (Some children) w))) = head (doc w) ++ copies
    /\ List.map skeleton copies
       = List.map skeleton (List.filter is_element children).
Proof.
  intros H. simpl. unfold modify, merge_children. simpl.
  rewrite merge_fold_without_ids.
  - destruct (importNodes_copy (List.filter is_element children) (next_nid w))
      as (S1 & _ & _).
    destruct (importNodes (List.filter is_element children) (next_nid w))
      as [copies k]. simpl in *. by exists copies.
  - apply Forall_forall. intros c Hc. rewrite Forall_forall in H.
    apply H. apply list_elem_of_In. apply list_elem_of_In in Hc.
    by apply filter_In in Hc as [? _].
Qed.

Lemma mergeHead_appends_without_ids_witness :
  exists copies,
    head (doc (snd (mergeHead
                      (Some [Elem 9 "title" [] [Text "new"]; Text " ";
                             Elem 8 "meta" [("charset", "utf-8")] []])
                      (start example_page live_document 7))))
    = head live_document ++ copies
    /\ List.map skeleton copies
       = [Elem 0 "title" [] [Text "new"]; Elem 0 "meta" [("charset", "utf-8")] []].
Proof.
  apply (mergeHead_appends_without_ids
           [Elem 9 "title" [] [Text "new"]; Text " ";
            Elem 8 "meta" [("charset", "utf-8")] []]
           (start example_page live_document 7)).
  repeat constructor.
Defined.

(** ** What the CSS diff can change, and when it throws *)

Lemma removeAttribute_setAttribute name v a :
  removeAttribute name (setAttribute name v a) = removeAttribute name a.
Proof.
  unfold removeAttribute. induction a as [|[k v'] a IH]; simpl.
  - by rewrite String.eqb_refl.
  - destruct (String.eqb_spec k name) as [->|Hk]; simpl.
    + by rewrite String.eqb_refl.
    + destruct (String.eqb_spec k name); [done|]. simpl. by rewrite IH.
Qed.

Lemma css_link_attrs P tp a st :
  fst (css_link P tp a st) = a
  \/ exists v, fst (css_link P tp a st) = setAttribute "href" v a.
Proof.
  unfold css_link. destruct (css_thrown st); [by left|].
  destruct (new_URL P (link_href P a)) as [u|]; [|by left].
  destruct (String.eqb (pathname u) tp); [right; by eexists|by left].
Qed.

Lemma css_nodes_mask_from P tp l :
  Forall (fun n => forall st, mask (fst (css_node P tp n st)) = mask n) l ->
  forall st, List.map mask (fst (css_nodes P tp l st)) = List.map mask l.
Proof.
  induction 1 as [|x r Hx Hr IH]; intros st; simpl; [done|].
  specialize (Hx st). destruct (css_node P tp x st) as [x' s1].
  specialize (IH s1). destruct (css_nodes P tp r s1) as [r' s2].
  simpl in *. by rewrite Hx, IH.
Qed.

Lemma css_node_mask P tp n : forall st, mask (fst (css_node P tp n st)) = mask n.
Proof.
  induction n as [d|i a t|i tg a kids IH] using node_induction; intros st;
    [done|done|].
  rewrite css_node_Elem.
  destruct (if is_stylesheet tg a then css_link P tp a st else (a, st))
    as [a' st1] eqn:E.
  assert (Ha : (if is_stylesheet tg a' then removeAttribute "href" a' else a')
               = (if is_stylesheet tg a then removeAttribute "href" a else a)).
  { destruct (is_stylesheet tg a) eqn:Es; [|injection E as <- _; by rewrite Es].
    apply (f_equal fst) in E. simpl in E. subst a'.
    destruct (css_link_attrs P tp a st) as [->|[v ->]]; [by rewrite Es|].
    by rewrite removeAttribute_setAttribute, is_stylesheet_set_href, Es. }
  pose proof (css_nodes_mask_from P tp kids IH st1) as Hk.
  destruct (css_nodes P tp kids st1) as [kids' st2].
  cbn [fst mask] in *. by rewrite Ha, Hk.
Qed.

Lemma css_nodes_mask P tp l st :
  List.map mask (fst (css_nodes P tp l st)) = List.map mask l.
Proof.
  apply css_nodes_mask_from, Forall_forall. intros n _. apply css_node_mask.
Qed.

Lemma hardReload_document P path w :
  doc (snd (hardReload P path w)) = doc w
  /\ next_nid (snd (hardReload P path w)) = next_nid w.
Proof.
  unfold hardReload, cacheBustUrl, bind.
  by destruct (new_URL P (ToString path)).
Qed.

Lemma title_element_Elem i tg a kids :
  title_element (Elem i tg a kids)
  = if String.eqb tg "title" then Some (Elem i tg a kids)
    else title_element_among kids.
Proof.
  simpl. destruct (String.eqb tg "title"); [done|].
  induction kids as [|x r IH]; [done|]. by rewrite IH.
Qed.

Lemma child_text_mask kids : child_text (List.map mask kids) = child_text kids.
Proof.
  induction kids as [|[d|i a t|i tg a l] r IH]; simpl; by rewrite ?IH.
Qed.

Lemma title_element_among_mask_from l :
  Forall (fun n => title_element (mask n) = option_map mask (title_element n)) l ->
  title_element_among (List.map mask l)
  = option_map mask (title_element_among l).
Proof.
  induction 1 as [|x r Hx Hr IH]; simpl; [done|].
  rewrite Hx. by destruct (title_element x).
Qed.

Lemma title_element_mask n :
  title_element (mask n) = option_map mask (title_element n).
Proof.
  induction n as [d|i a t|i tg a kids IH] using node_induction; [done|done|].
  change (mask (Elem i tg a kids))
    with (Elem i tg (if is_stylesheet tg a then removeAttribute "href" a else a)
               (List.map mask kids)).
  rewrite !title_element_Elem.
  destruct (String.eqb tg "title"); [done|].
  by apply title_element_among_mask_from.
Qed.

(** The title of a document does not depend on the href of its
    stylesheet links. *)
Lemma title_masked (d d' : document) :
  List.map mask (head d') = List.map mask (head d) ->
  List.map mask (body d') = List.map mask (body d) ->
  title d' = title d.
Proof.
  intros Hh Hb.
  assert (E : forall l,
    match title_element_among (List.map mask l) with
    | Some t => Str.strip_and_collapse (child_text (node_kids t))
    | None => ""
    end
    = match title_element_among l with
      | Some t => Str.strip_and_collapse (child_text (node_kids t))
      | None => ""
      end).
  { intros l. rewrite title_element_among_mask_from
      by (apply Forall_forall; intros n _; apply title_element_mask).
    destruct (title_element_among l) as [[x|i a t|i tg a kids]|]; simpl; try done.
    by rewrite child_text_mask. }
  unfold title. rewrite <- (E (head d' ++ body d')), <- (E (head d ++ body d)).
  by rewrite !map_app, Hh, Hb.
Qed.

(** X15: whatever its path and whatever it ends in (a rewrite, a reload
    or an exception), the CSS diff creates no node, removes none, and
    changes nothing of the document but the href of stylesheet links:
    with these hrefs taken away the head and the body are what they
    were, and so is the title. *)
Theorem applyCssDiff_touches_hrefs_only (P : Platform) (path : value)
    (w : world) :
  List.map mask (head (doc (snd (applyCssDiff P path w))))
  = List.map mask (head (doc w))
  /\ List.map mask (body (doc (snd (applyCssDiff P path w))))
     = List.map mask (body (doc w))
  /\ title (doc (snd (applyCssDiff P path w))) = title (doc w)
  /\ next_nid (snd (applyCssDiff P path w)) = next_nid w.
Proof.
  cut (List.map mask (head (doc (snd (applyCssDiff P path w))))
       = List.map mask (head (doc w))
       /\ List.map mask (body (doc (snd (applyCssDiff P path w))))
          = List.map mask (body (doc w))
       /\ next_nid (snd (applyCssDiff P path w)) = next_nid w).
  { intros (Hh & Hb & Hn). split; [done|]. split; [done|]. split; [|done].
    by apply title_masked. }
  unfold applyCssDiff.
  destruct (truthy path); simpl;
    [|by destruct (hardReload_document P (current_path P) w) as [-> ->]].
  destruct (new_URL P (ToString path)) as [target|]; [|done].
  unfold bind, refresh_stylesheets.
  pose proof (css_nodes_mask P (pathname target) (head (doc w))
                (mkCss (clock w) false false)) as Hh.
  destruct (css_nodes P (pathname target) (head (doc w)) _) as [h s1].
  pose proof (css_nodes_mask P (pathname target) (body (doc w)) s1) as Hb.
  destruct (css_nodes P (pathname target) (body (doc w)) s1) as [b s2].
  simpl in *. destruct (css_thrown s2); [done|].
  destruct (css_updated s2); simpl; [done|].
  match goal with
  | |- context [hardReload P ?p ?w0] =>
      destruct (hardReload_document P p w0) as [-> ->]
  end.
  done.
Qed.



(** ** The HTML diff *)
















(** ** The head merge replaces by id *)

Lemma index_other l :
  forall (m0 : gmap string nat) x,
    (forall m, m ∈ l -> node_id m <> x) ->
    foldl index_child m0 l !! x = m0 !! x.
Proof.
  induction l as [|n r IH]; intros m0 x H; simpl; [done|].
  rewrite IH; [|intros m Hm; apply H, elem_of_cons; by right].
  unfold index_child. destruct (node_nid n); [|done].
  destruct (nonempty (node_id n)); [|done].
  apply lookup_insert_ne, H, elem_of_cons. by left.
Qed.

(** The map points an id at the last child that carries it. *)
Lemma existingById_last l :
  forall i n v (m0 : gmap string nat),
    l !! i = Some n ->
    node_nid n = Some v ->
    nonempty (node_id n) = true ->
    (forall j m, (i < j)%nat -> l !! j = Some m -> node_id m <> node_id n) ->
    foldl index_child m0 l !! node_id n = Some v.
Proof.
  induction l as [|y r IH]; intros i n v m0 Hi Hv Hne Hlast; [done|].
  destruct i as [|i]; simpl in *.
  - injection Hi as ->. rewrite index_other.
    + unfold index_child. rewrite Hv, Hne. apply lookup_insert_eq.
    + intros m Hm. apply list_elem_of_lookup in Hm as [j Hj].
      apply (Hlast (S j)); [lia|done].
  - apply (IH i); try done. intros j m Hj Hm. apply (Hlast (S j)); [lia|done].
Qed.

Lemma lookup_replaceWith_eq t new l :
  forall i n,
    NoDup (child_nids l) ->
    l !! i = Some n -> node_nid n = Some t ->
    replaceWith t new l !! i = Some new.
Proof.
  induction l as [|x r IH]; intros i n Hnd Hi Hn; [done|]. simpl.
  destruct i as [|i]; simpl in Hi.
  - injection Hi as ->. by rewrite bool_decide_eq_true_2.
  - simpl in Hnd. destruct (bool_decide_reflect (node_nid x = Some t)) as [Hx|Hx].
    + rewrite Hx in Hnd. apply NoDup_cons in Hnd as [Hni _].
      destruct Hni. apply (nid_in_child_nids r n t); [|done].
      by eapply list_elem_of_lookup_2.
    + simpl. apply (IH i n); [|done..].
      destruct (node_nid x); [by apply NoDup_cons in Hnd as [_ ?]|done].
Qed.

Lemma merge_fold_inv_elements hd0 l :
  Forall (fun c => is_element c = true) l ->
  forall st, merge_inv hd0 st -> merge_inv hd0 (foldl merge_child st l).
Proof.
  induction 1 as [|c r Hc Hr IH]; intros st Hst; simpl; [done|].
  by apply IH, merge_child_inv.
Qed.

(** Before the loop meets the id of the child [n] at place [i]: [n] is
    still there and the map still points its id at it. *)
Lemma merge_fold_before hd0 (i : nat) (n : node) (v : nat) l :
  Forall (fun c => is_element c = true /\ node_id c <> node_id n) l ->
  node_nid n = Some v ->
  forall hd idx k,
    merge_inv hd0 (hd, idx, k) ->
    hd !! i = Some n ->
    idx !! node_id n = Some v ->
    exists hd' idx' k',
      foldl merge_child (hd, idx, k) l = (hd', idx', k')
      /\ merge_inv hd0 (hd', idx', k')
      /\ hd' !! i = Some n
      /\ idx' !! node_id n = Some v.
Proof.
  intros Hl Hv. induction Hl as [|c r [Hc Hid] Hr IH]; intros hd idx k Hinv Hi Hx.
  - by exists hd, idx, k.
  - simpl. pose proof (merge_child_inv hd0 (hd, idx, k) c Hc Hinv) as Hinv'.
    destruct Hinv as (_ & _ & Hidx & _).
    unfold merge_child in *.
    destruct (nonempty (node_id c) && preserved (node_id c)); [by apply IH|].
    destruct (importNode c k) as [imported k1].
    destruct (if nonempty (node_id c) then idx !! node_id c else None)
      as [e|] eqn:Ee.
    + destruct (nonempty (node_id c)); [|done].
      apply IH; [done| |by rewrite lookup_delete_ne].
      apply lookup_replaceWith_ne; [done|]. rewrite Hv. intros [= <-].
      destruct (Hidx _ _ Ee) as [_ Hem]. apply Hid. symmetry.
      apply Hem; [by eapply list_elem_of_lookup_2|done].
    + apply IH; [done| |done]. by apply lookup_app_l_Some.
Qed.

Lemma merge_child_step hd idx k c :
  merge_child (hd, idx, k) c
  = if nonempty (node_id c) && preserved (node_id c) then (hd, idx, k)
    else
      let '(imported, k') := importNode c k in
      match (if nonempty (node_id c) then idx !! node_id c else None) with
      | Some existing =>
          (replaceWith existing imported hd, delete (node_id c) idx, k')
      | None => (hd ++ [imported], idx, k')
      end.
Proof. reflexivity. Qed.

(** After the copy took the place [i]: no entry of the map points at
    it, so it stays. *)
Lemma merge_fold_after (i j : nat) (copy : node) l :
  node_nid copy = Some j ->
  forall hd idx k,
    hd !! i = Some copy ->
    (forall id e, idx !! id = Some e -> e <> j) ->
    fst (fst (foldl merge_child (hd, idx, k) l)) !! i = Some copy.
Proof.
  intros Hj. induction l as [|c r IH]; intros hd idx k Hi Hidx; [done|].
  cbn [foldl]. rewrite merge_child_step.
  destruct (nonempty (node_id c) && preserved (node_id c)); [by apply IH|].
  destruct (importNode c k) as [imported k1].
  destruct (if nonempty (node_id c) then idx !! node_id c else None)
    as [e|] eqn:Ee.
  - destruct (nonempty (node_id c)); [|done]. apply IH.
    + apply lookup_replaceWith_ne; [done|]. rewrite Hj. intros [= <-].
      by apply (Hidx _ _ Ee).
    + intros id e' He'. apply lookup_delete_Some in He' as [_ He'].
      by apply (Hidx _ _ He').
  - apply IH; [by apply lookup_app_l_Some|done].
Qed.

(** X19: take a live head whose children are distinct objects, a child
    [n] at place [i] whose id is not empty and not preserved and which is
    the last child with that id, and the first fetched element [c] that
    carries this id.  After the merge a copy of [c] (its tags,
    attributes, text and shape) stands at place [i], in place of [n]. *)
Theorem mergeHead_replaces_by_id (children l1 l2 : list node) (c n : node)
    (i : nat) (w : world) :
  wf_head w ->
  head (doc w) !! i = Some n ->
  nonempty (node_id n) = true ->
  preserved (node_id n) = false ->
  (forall j m, (i < j)%nat -> head (doc w) !! j = Some m ->
               node_id m <> node_id n) ->
  List.filter is_element children = l1 ++ c :: l2 ->
  Forall (fun c' => node_id c' <> node_id n) l1 ->
  node_id c = node_id n ->
  exists copy,
    head (doc (snd (mergeHead (Some children) w))) !! i = Some copy
    /\ skeleton copy = skeleton c.
Proof.
  intros [Hnd Hlt] Hi Hne Hnp Hlast Hsplit Hl1 Hc.
  assert (Hel : Forall (fun c' => is_element c' = true) (l1 ++ c :: l2)).
  { rewrite <- Hsplit. apply Forall_forall. intros x Hx.
    apply list_elem_of_In, filter_In in Hx. tauto. }
  apply Forall_app in Hel as [Hel1 Hel2]. apply Forall_cons in Hel2 as [Hec _].
  assert (Hv : exists v, node_nid n = Some v).
  { destruct n as [d|v a t|v tg a kids]; [done|by exists v..]. }
  destruct Hv as [v Hv].
  simpl. unfold modify, merge_children. simpl. rewrite Hsplit, foldl_app.
  destruct (merge_fold_before (head (doc w)) i n v l1) with
    (hd := head (doc w)) (idx := existingById (head (doc w))) (k := next_nid w)
    as (hd1 & idx1 & k1 & E1 & Hinv1 & Hi1 & Hx1).
  - apply Forall_forall. intros x Hx. rewrite Forall_forall in Hel1, Hl1. auto.
  - done.
  - by apply merge_inv_start.
  - done.
  - by apply (existingById_last _ i).
  - rewrite E1. cbn [foldl].
    destruct Hinv1 as (Hnd1 & _ & Hidx1 & _).
    rewrite merge_child_step, Hc, Hne, Hnp, Hx1. cbn [andb].
    destruct (importNode_element c k1 Hec) as (Hnid & _ & _ & _).
    destruct (importNode_copy c k1) as (Hsk & _ & _).
    destruct (importNode c k1) as [imported k2]. simpl in *.
    exists imported. split; [|done].
    pose proof (merge_fold_after i k1 imported l2 Hnid
                  (replaceWith v imported hd1) (delete (node_id n) idx1) k2) as H.
    destruct (foldl merge_child
                (replaceWith v imported hd1, delete (node_id n) idx1, k2) l2)
      as [[hd' idx'] k'].
    simpl in *. apply H.
    + by apply (lookup_replaceWith_eq _ _ _ i n).
    + intros id e He. apply lookup_delete_Some in He as [_ He].
      destruct (Hidx1 _ _ He) as [Hlt1 _]. lia.
Qed.

Lemma mergeHead_replaces_by_id_witness :
  exists copy,
    head (doc (snd (mergeHead (Some fetched_head)
                      (start example_page live_document 7)))) !! 3%nat
    = Some copy
    /\ skeleton copy
       = Elem 0 "link" [("id", "theme"); ("rel", "stylesheet"); ("href", "/t.css")] [].
Proof.
  apply (mergeHead_replaces_by_id fetched_head
           [Elem 100 "meta" [("id", "__web_dev_server_config"); ("content", "new")] []]
           [Elem 102 "title" [] [Text "fetched"];
            Script 103 [("id", "__web_dev_server_client")] "other()"]
           (Elem 101 "link" [("id", "theme"); ("rel", "stylesheet"); ("href", "/t.css")] [])
           (Elem 2 "link" [("id", "theme"); ("rel", "stylesheet")] [])
           3%nat (start example_page live_document 7)).
  - split; apply (bool_decide_unpack _); vm_compute; exact I.
  - reflexivity.
  - reflexivity.
  - reflexivity.
  - intros j m Hj Hm. destruct j as [|[|[|[|[|j]]]]]; try lia.
    + injection Hm as <-. discriminate.
    + discriminate Hm.
  - reflexivity.
  - repeat constructor. discriminate.
  - reflexivity.
Defined.
